(** * RanchoFinanzas: the offline-first ledger and its synchronisation

    A shallow embedding of [db.js] (the local store on IndexedDB/Dexie) and of
    [sync.js] (push, pull and the combined sync), followed by the properties
    of the store, of the summaries and of the reconciliation protocol; then
    the parts of [utils.js], [form.js], [settings.js] and [reports.js] that
    feed the store or read it: the dates of a period, the ids of new
    records, the submit handler of the form, the endpoint dialog and the
    manual sync, and the data of the bar chart.

    Conventions of the model
    - A JavaScript value is a [jsval], one of the primitive values: no field
      of a transaction holds an object or an array.  Numbers are the
      integers together with [NaN] (JavaScript arithmetic is exact on
      integers below 2^53), so a string reads as a number only when it is an
      integer literal.  The readings of [Math.random] are rationals.
    - A date string of the form YYYY-MM-DD is held as its day number (days
      since 1970-01-01); [None] is a value that [new Date] turns into
      Invalid Date.
    - The table [transactions] is the list of its rows in primary-key order,
      the order in which Dexie's [toArray] delivers them.
    - The network and the clock are inputs: an [env] gives the answers of the
      two HTTP calls, a [clock] the readings of [new Date().toISOString()]. *)

From stdpp Require Import base option list gmap strings sorting.
From Stdlib Require Import ZArith QArith Qround Lia Ascii.

Local Open Scope string_scope.
Local Open Scope Z_scope.

(** ** JavaScript values *)

Inductive jsnum : Type :=
  | NaN
  | Fin (z : Z).

Inductive jsval : Type :=
  | JUndefined
  | JNull
  | JBool (b : bool)
  | JNum (n : jsnum)
  | JStr (s : string).

#[global] Instance jsnum_eq_dec : EqDecision jsnum.
Proof. solve_decision. Defined.

#[global] Instance jsval_eq_dec : EqDecision jsval.
Proof. solve_decision. Defined.

(** [a + b] on numbers. *)
Definition js_add (a b : jsnum) : jsnum :=
  match a, b with
  | Fin x, Fin y => Fin (x + y)
  | _, _ => NaN
  end.

(** [a - b] on numbers. *)
Definition js_sub (a b : jsnum) : jsnum :=
  match a, b with
  | Fin x, Fin y => Fin (x - y)
  | _, _ => NaN
  end.

(** ToBoolean: [undefined], [null], [false], [0], [NaN] and [''] are falsy. *)
Definition truthy (v : jsval) : bool :=
  match v with
  | JUndefined | JNull => false
  | JBool b => b
  | JNum NaN => false
  | JNum (Fin z) => negb (z =? 0)
  | JStr s => negb (String.eqb s EmptyString)
  end.

(** [a || b]. *)
Definition js_or (a b : jsval) : jsval := if truthy a then a else b.

(** The value of a string of decimal digits, most significant first. *)
Fixpoint digits_value (s : string) (acc : Z) : option Z :=
  match s with
  | EmptyString => Some acc
  | String c rest =>
      let n := Z.of_nat (Ascii.nat_of_ascii c) in
      if (48 <=? n) && (n <=? 57) then digits_value rest (10 * acc + (n - 48))
      else None
  end.

(** StringToNumber on the integer literals: the empty string is [0], an
    optionally signed run of decimal digits is its value, any other string
    is [NaN]. *)
Definition string_to_number (s : string) : jsnum :=
  match s with
  | EmptyString => Fin 0
  | String "-"%char (String _ _ as rest) =>
      match digits_value rest 0 with Some z => Fin (- z) | None => NaN end
  | String "+"%char (String _ _ as rest) =>
      match digits_value rest 0 with Some z => Fin z | None => NaN end
  | _ => match digits_value s 0 with Some z => Fin z | None => NaN end
  end.

(** [Number(v)]. *)
Definition Number (v : jsval) : jsnum :=
  match v with
  | JUndefined => NaN
  | JNull => Fin 0
  | JBool b => Fin (if b then 1 else 0)
  | JNum n => n
  | JStr s => string_to_number s
  end.

(** ** Dates *)

(** A YYYY-MM-DD string as a day number; [None] does not parse. *)
Definition datestr : Type := option Z.

(** The time value of a [Date]: milliseconds since the epoch, [None] for
    Invalid Date. *)
Definition timeval : Type := option Z.

Definition msPerDay : Z := 86400000.

(** [new Date(s)] on a date-only string is midnight UTC of that day. *)
Definition new_Date (s : datestr) : timeval := (λ d, d * msPerDay) <$> s.

(** [d.setHours(h, m, sec, ms)] where local time is UTC plus [tz]
    milliseconds, a fixed offset (no change of daylight saving is modelled):
    the local calendar day is kept, the time of day replaced. *)
Definition setHours (tz : Z) (h m sec ms : Z) (d : timeval) : timeval :=
  (λ t, ((t + tz) `div` msPerDay) * msPerDay
        + (h * 3600000 + m * 60000 + sec * 1000 + ms) - tz) <$> d.

(** [a >= b] and [a <= b] on dates: false as soon as one side is invalid. *)
Definition date_ge (a b : timeval) : bool :=
  match a, b with Some x, Some y => y <=? x | _, _ => false end.

Definition date_le (a b : timeval) : bool :=
  match a, b with Some x, Some y => x <=? y | _, _ => false end.

(** ** The data model of db.js *)

Inductive sync_status : Type :=
  | Pending   (* 'pending' *)
  | Synced.   (* 'synced' *)

#[global] Instance sync_status_eq_dec : EqDecision sync_status.
Proof. solve_decision. Defined.

(** A row of the table [transactions]. *)
Record tx : Type := mk_tx {
  localId : Z;
  id : jsval;
  tipo : jsval;
  monto : jsnum;
  fecha : datestr;
  descripcion : jsval;
  categoria : jsval;
  metodoPago : jsval;
  comprobante : jsval;
  usuario : jsval;
  syncStatus : sync_status;
  createdAt : jsval;
}.

(** The object the form hands to [addTransaction]. *)
Record new_tx : Type := mk_new_tx {
  n_id : jsval;
  n_tipo : jsval;
  n_monto : jsnum;
  n_fecha : datestr;
  n_descripcion : jsval;
  n_categoria : jsval;
  n_metodoPago : jsval;
  n_comprobante : jsval;
  n_usuario : jsval;
}.

(** A transaction on the wire: an element of the body of POST /api/sync, and
    the argument of [upsertRemoteTransaction]. *)
Record wire : Type := mk_wire {
  w_id : jsval;
  w_tipo : jsval;
  w_monto : jsnum;
  w_fecha : datestr;
  w_descripcion : jsval;
  w_categoria : jsval;
  w_metodoPago : jsval;
  w_usuario : jsval;
  w_createdAt : jsval;
}.

(** An element of [data.transactions] as GET /api/transactions delivers it:
    any field may be missing ([JUndefined]). *)
Record remote_tx : Type := mk_remote_tx {
  r_id : jsval;
  r_tipo : jsval;
  r_monto : jsval;
  r_fecha : datestr;
  r_descripcion : jsval;
  r_categoria : jsval;
  r_metodoPago : jsval;
  r_usuario : jsval;
  r_createdAt : jsval;
}.

#[global] Instance tx_eq_dec : EqDecision tx.
Proof. solve_decision. Defined.

#[global] Instance wire_eq_dec : EqDecision wire.
Proof. solve_decision. Defined.

(** The database: both tables and the key generator of [++localId]. *)
Record db : Type := mk_db {
  transactions : list tx;
  nextLocalId : Z;
  settings : gmap string jsval;
}.

Definition empty_db : db :=
  {| transactions := []; nextLocalId := 1; settings := ∅ |}.

Definition with_transactions (rows : list tx) (s : db) : db :=
  {| transactions := rows; nextLocalId := nextLocalId s; settings := settings s |}.

Definition set_syncStatus (st : sync_status) (t : tx) : tx :=
  {| localId := localId t; id := id t; tipo := tipo t; monto := monto t;
     fecha := fecha t; descripcion := descripcion t; categoria := categoria t;
     metodoPago := metodoPago t; comprobante := comprobante t;
     usuario := usuario t; syncStatus := st; createdAt := createdAt t |}.

(** ** db.js *)

(** [addTransaction]: the row is the given object with [syncStatus] and
    [createdAt] set, stored under the next generated key, which is returned. *)
Definition addTransaction (transaction : new_tx) (now : string) (s : db) : db * Z :=
  let row :=
    {| localId := nextLocalId s;
       id := n_id transaction; tipo := n_tipo transaction;
       monto := n_monto transaction; fecha := n_fecha transaction;
       descripcion := n_descripcion transaction;
       categoria := n_categoria transaction;
       metodoPago := n_metodoPago transaction;
       comprobante := n_comprobante transaction;
       usuario := n_usuario transaction;
       syncStatus := Pending;
       createdAt := JStr now |} in
  ({| transactions := transactions s ++ [row];
      nextLocalId := nextLocalId s + 1;
      settings := settings s |},
   nextLocalId s).

(** [getTransactionsByDateRange]. *)
Definition getTransactionsByDateRange (tz : Z) (startDate endDate : datestr)
    (s : db) : list tx :=
  let start := setHours tz 0 0 0 0 (new_Date startDate) in
  let end_ := setHours tz 23 59 59 999 (new_Date endDate) in
  let all := transactions s in
  List.filter (λ t, let d := new_Date (fecha t) in
                    date_ge d start && date_le d end_) all.

Definition is_pending (t : tx) : bool := bool_decide (syncStatus t = Pending).

(** [getPendingTransactions]. *)
Definition getPendingTransactions (s : db) : list tx :=
  List.filter is_pending (transactions s).

(** [markAsSynced]. *)
Definition markAsSynced (localIds : list Z) (s : db) : db :=
  with_transactions
    (map (λ t, if bool_decide (localId t ∈ localIds)
               then set_syncStatus Synced t else t)
         (transactions s)) s.

(** [getSetting]. *)
Definition getSetting (key : string) (s : db) : jsval :=
  match settings s !! key with Some value => value | None => JNull end.

(** [setSetting]. *)
Definition setSetting (key : string) (value : jsval) (s : db) : db :=
  {| transactions := transactions s; nextLocalId := nextLocalId s;
     settings := <[key := value]> (settings s) |}.

(** [t.tipo === 'ingreso']. *)
Definition is_ingreso (t : tx) : bool := bool_decide (tipo t = JStr "ingreso").

(** The [forEach] loop shared by [getSummary] and [getTotalBalance]: the
    pair of running totals. *)
Definition tally (l : list tx) : jsnum * jsnum :=
  fold_left (λ acc t,
               if is_ingreso t then (js_add (fst acc) (monto t), snd acc)
               else (fst acc, js_add (snd acc) (monto t)))
            l (Fin 0, Fin 0).

Record summary : Type := mk_summary {
  totalIngresos : jsnum;
  totalGastos : jsnum;
  balance : jsnum;
  transacciones : nat;
}.

(** [getSummary]. *)
Definition getSummary (tz : Z) (startDate endDate : datestr) (s : db) : summary :=
  let transactions := getTransactionsByDateRange tz startDate endDate s in
  let totals := tally transactions in
  {| totalIngresos := fst totals;
     totalGastos := snd totals;
     balance := js_sub (fst totals) (snd totals);
     transacciones := length transactions |}.

(** [deleteTransaction]. *)
Definition deleteTransaction (key : Z) (s : db) : db :=
  with_transactions
    (List.filter (λ t, negb (bool_decide (localId t = key))) (transactions s)) s.

Record total_balance : Type := mk_total_balance {
  ingresos : jsnum;
  gastos : jsnum;
  tb_balance : jsnum;
}.

(** [getTotalBalance]. *)
Definition getTotalBalance (s : db) : total_balance :=
  let all := transactions s in
  let totals := tally all in
  {| ingresos := fst totals; gastos := snd totals;
     tb_balance := js_sub (fst totals) (snd totals) |}.

(** Modelled from the spec: [upsertRemoteTransaction] is imported by sync.js
    from db.js but is not part of the sources at hand.  Spec 4.1,
    upsertRemote: "if no local record has this globalId, insert with
    syncState = synced; if one exists, and its local syncState is already
    synced, overwrite fields and keep synced; if one exists with syncState =
    pending, the remote copy is discarded (local pending edit wins).  Returns
    whether a new record was inserted".  The record that exists is the first
    one in key order; an overwrite is the full replacement of spec 3
    (lifecycle), under the same local key. *)
Definition row_of_wire (key : Z) (t : wire) : tx :=
  {| localId := key;
     id := w_id t; tipo := w_tipo t; monto := w_monto t; fecha := w_fecha t;
     descripcion := w_descripcion t; categoria := w_categoria t;
     metodoPago := w_metodoPago t; comprobante := JUndefined;
     usuario := w_usuario t; syncStatus := Synced;
     createdAt := w_createdAt t |}.

(** Modelled from the spec: the merge of [t] into the rows, [None] when no
    local record has the id of [t] (see [row_of_wire]). *)
Fixpoint upsert_rows (t : wire) (rows : list tx) : option (list tx) :=
  match rows with
  | [] => None
  | r :: rest =>
      if bool_decide (id r = w_id t) then
        Some (match syncStatus r with
              | Pending => r :: rest
              | Synced => row_of_wire (localId r) t :: rest
              end)
      else cons r <$> upsert_rows t rest
  end.

(** Modelled from the spec: [upsertRemoteTransaction] of db.js, absent from
    the sources (see [row_of_wire]); the result tells whether a record was
    inserted. *)
Definition upsertRemoteTransaction (t : wire) (s : db) : db * bool :=
  match upsert_rows t (transactions s) with
  | Some rows => (with_transactions rows s, false)
  | None =>
      ({| transactions := transactions s ++ [row_of_wire (nextLocalId s) t];
          nextLocalId := nextLocalId s + 1;
          settings := settings s |}, true)
  end.

(** Modelled from the spec: [setLastSyncTimestamp] of db.js, absent from the
    sources.  Spec 4.3, pull step 4: "Record the current time as the
    last-sync watermark (persisted setting)"; the key under which it is
    kept is the model's choice. *)
Definition setLastSyncTimestamp (ts : string) (s : db) : db :=
  setSetting "lastSync" (JStr ts) s.

(** Modelled from the spec: [getLastSyncTimestamp] of db.js, absent from the
    sources (see [setLastSyncTimestamp]). *)
Definition getLastSyncTimestamp (s : db) : jsval := getSetting "lastSync" s.

(** ** sync.js *)

(** What [fetch] of POST /api/sync comes to: it throws, or there is a
    response with its [ok] flag. *)
Inductive post_outcome : Type :=
  | PostThrows
  | PostStatus (ok : bool).

(** What [fetch] of GET /api/transactions comes to: the call or the decoding
    of the body throws, the response is not [ok], or the decoded body with
    its [transactions] property ([None] when it has none). *)
Inductive get_outcome : Type :=
  | GetThrows
  | GetNotOk
  | GetJson (transactions : option (list remote_tx)).

(** The surroundings of one run: connectivity, configuration and the remote
    endpoint, which may answer a POST according to its body. *)
Record env : Type := mk_env {
  onLine : bool;
  api_url : string;
  post_sync : list wire → post_outcome;
  get_transactions : get_outcome;
}.

(** The readings of the clock during a pull: [clock i] is
    [new Date().toISOString()] while element [i] of the response is
    processed, [clock n] after the last of [n] elements. *)
Definition clock : Type := nat → string.

(** [getApiUrl]. *)
Definition getApiUrl (e : env) : string := api_url e.

(** [!navigator.onLine || !API_URL]. *)
Definition sync_disabled (e : env) : bool :=
  negb (onLine e) || String.eqb (getApiUrl e) EmptyString.

Record push_result : Type := mk_push_result {
  synced : nat;
  pending : nat;
}.

(** The element of the request body made from a pending row. *)
Definition wire_of_tx (t : tx) : wire :=
  {| w_id := id t;
     w_tipo := tipo t;
     w_monto := monto t;
     w_fecha := fecha t;
     w_descripcion := descripcion t;
     w_categoria := js_or (categoria t) (JStr "general");
     w_metodoPago := metodoPago t;
     w_usuario := usuario t;
     w_createdAt := createdAt t |}.

(** The [transactions] array of the request body. *)
Definition push_body (pending : list tx) : list wire := map wire_of_tx pending.

(** [pushPendingTransactions]. *)
Definition pushPendingTransactions (e : env) (s : db) : db * push_result :=
  if sync_disabled e then (s, {| synced := 0; pending := 0 |})
  else
    let pending_rows := getPendingTransactions s in
    if Nat.eqb (length pending_rows) 0 then (s, {| synced := 0; pending := 0 |})
    else
      match post_sync e (push_body pending_rows) with
      | PostStatus true =>
          let localIds := map localId pending_rows in
          (markAsSynced localIds s,
           {| synced := length localIds; pending := 0 |})
      | PostStatus false =>
          (s, {| synced := 0; pending := length pending_rows |})
      | PostThrows =>
          (s, {| synced := 0; pending := length (getPendingTransactions s) |})
      end.

(** The argument of [upsertRemoteTransaction] made from a remote record. *)
Definition normalize (now : string) (t : remote_tx) : wire :=
  {| w_id := r_id t;
     w_tipo := r_tipo t;
     w_monto := Number (r_monto t);
     w_fecha := r_fecha t;
     w_descripcion := js_or (r_descripcion t) (JStr EmptyString);
     w_categoria := js_or (r_categoria t) (JStr "general");
     w_metodoPago := js_or (r_metodoPago t) (JStr "efectivo");
     w_usuario := js_or (r_usuario t) (JStr EmptyString);
     w_createdAt := js_or (r_createdAt t) (JStr now) |}.

Section PullLoop.

(** The merge the loop calls: [upsertRemoteTransaction] in sync.js. *)
Variable upsert : wire → db → db * bool.

(** The [for ... of] loop of [pullRemoteTransactions] from element [i] on,
    with the store and the counter [inserted] it has reached. *)
Fixpoint pull_loop (now : clock) (i : nat) (remoteTransactions : list remote_tx)
    (s : db) (inserted : nat) : db * nat :=
  match remoteTransactions with
  | [] => (s, inserted)
  | t :: rest =>
      if negb (truthy (r_id t)) then pull_loop now (S i) rest s inserted
      else
        let '(s', wasNew) := upsert (normalize (now i) t) s in
        pull_loop now (S i) rest s'
                  (if wasNew then S inserted else inserted)
  end.

End PullLoop.

(** [pullRemoteTransactions]; the result is the store and [pulled]. *)
Definition pullRemoteTransactions (e : env) (now : clock) (s : db) : db * nat :=
  if sync_disabled e then (s, 0%nat)
  else
    match get_transactions e with
    | GetThrows => (s, 0%nat)
    | GetNotOk => (s, 0%nat)
    | GetJson data_transactions =>
        let remoteTransactions := default [] data_transactions in
        let '(s', inserted) :=
          pull_loop upsertRemoteTransaction now 0 remoteTransactions s 0 in
        (setLastSyncTimestamp (now (length remoteTransactions)) s', inserted)
    end.

Record sync_result : Type := mk_sync_result {
  sync_synced : nat;
  sync_pulled : nat;
  sync_pending : nat;
}.

(** [syncPendingTransactions]: push first, then pull. *)
Definition syncPendingTransactions (e : env) (now : clock) (s : db)
    : db * sync_result :=
  let '(s1, pushResult) := pushPendingTransactions e s in
  let '(s2, pulled) := pullRemoteTransactions e now s1 in
  (s2, {| sync_synced := synced pushResult;
          sync_pulled := pulled;
          sync_pending := pending pushResult |}).

(** ** Notions the properties are stated with *)

(** The sum of the amounts of a list of rows. *)
Fixpoint sum_montos (l : list tx) : jsnum :=
  match l with
  | [] => Fin 0
  | t :: rest => js_add (monto t) (sum_montos rest)
  end.

(** An expense by its kind: [tipo] is 'gasto', the value the home screen
    gives the form for an expense. *)
Definition is_gasto (t : tx) : bool := bool_decide (tipo t = JStr "gasto").

(** The date of the row is one of the calendar days [ds], ..., [de]. *)
Definition dated_within (ds de : Z) (t : tx) : bool :=
  match fecha t with
  | Some d => (ds <=? d) && (d <=? de)
  | None => false
  end.

Definition set_createdAt (c : jsval) (t : tx) : tx :=
  {| localId := localId t; id := id t; tipo := tipo t; monto := monto t;
     fecha := fecha t; descripcion := descripcion t; categoria := categoria t;
     metodoPago := metodoPago t; comprobante := comprobante t;
     usuario := usuario t; syncStatus := syncStatus t; createdAt := c |}.

(** The projection of a row onto the nine wire fields, as the spec words the
    request body: nothing but the fields themselves. *)
Definition project (t : tx) : wire :=
  {| w_id := id t; w_tipo := tipo t; w_monto := monto t; w_fecha := fecha t;
     w_descripcion := descripcion t; w_categoria := categoria t;
     w_metodoPago := metodoPago t; w_usuario := usuario t;
     w_createdAt := createdAt t |}.

(** The projection with the default the code gives a falsy category. *)
Definition project_default_categoria (t : tx) : wire :=
  {| w_id := id t; w_tipo := tipo t; w_monto := monto t; w_fecha := fecha t;
     w_descripcion := descripcion t;
     w_categoria := if truthy (categoria t) then categoria t else JStr "general";
     w_metodoPago := metodoPago t; w_usuario := usuario t;
     w_createdAt := createdAt t |}.

(** Two rows that differ at most in the local-only fields [localId],
    [syncStatus] and [comprobante]. *)
Definition same_wire_fields (a b : tx) : Prop := project a = project b.

(** The ids of the local records, in key order. *)
Definition ids (s : db) : list jsval := map id (transactions s).

(** Each id identifies at most one local record. *)
Definition unique_ids (s : db) : Prop := NoDup (ids s).

(** The operations on the store that create records. *)
Inductive op : Type :=
  | OpAdd (transaction : new_tx) (now : string)
  | OpPull (e : env) (now : clock)
  | OpPush (e : env).

Definition step (o : op) (s : db) : db :=
  match o with
  | OpAdd transaction now => fst (addTransaction transaction now s)
  | OpPull e now => fst (pullRemoteTransactions e now s)
  | OpPush e => fst (pushPendingTransactions e s)
  end.

Definition run (ops : list op) (s : db) : db := fold_left (λ s o, step o s) ops s.

(** Every [OpAdd] of the sequence brings an id that no local record has at
    the time it is added. *)
Fixpoint fresh_adds (ops : list op) (s : db) : bool :=
  match ops with
  | [] => true
  | o :: rest =>
      match o with
      | OpAdd transaction _ => bool_decide (n_id transaction ∉ ids s)
      | _ => true
      end && fresh_adds rest (step o s)
  end.

(** The records a pull hands to the merge, in order: those of the response
    from element [i] on whose id is truthy, normalised. *)
Fixpoint upsert_calls (now : clock) (i : nat) (remoteTransactions : list remote_tx)
    : list wire :=
  match remoteTransactions with
  | [] => []
  | t :: rest =>
      if truthy (r_id t) then normalize (now i) t :: upsert_calls now (S i) rest
      else upsert_calls now (S i) rest
  end.

(** One merge with its count, as the loop body does it. *)
Definition merge_step (upsert : wire → db → db * bool) (acc : db * nat) (u : wire)
    : db * nat :=
  let '(s', wasNew) := upsert u (fst acc) in
  (s', if wasNew then S (snd acc) else snd acc).

(** Every remote record with a truthy id carries a truthy [createdAt]. *)
Definition stamped (remoteTransactions : list remote_tx) : bool :=
  forallb (λ t, negb (truthy (r_id t)) || truthy (r_createdAt t)) remoteTransactions.

Definition remote_stamped (e : env) : bool :=
  match get_transactions e with
  | GetJson (Some remoteTransactions) => stamped remoteTransactions
  | _ => true
  end.

(** A row that is no income: what the summaries take for an expense. *)
Definition not_ingreso (t : tx) : bool := negb (is_ingreso t).

(** ** The merge as a function on the store

    [upsertRemoteTransaction] seen as a total function on the rows: the row
    merged into, or the row appended under the key [next]. *)
Fixpoint merge_rows (u : wire) (next : Z) (rows : list tx) : list tx :=
  match rows with
  | [] => [row_of_wire next u]
  | r :: rest =>
      if bool_decide (id r = w_id u) then
        match syncStatus r with
        | Pending => r
        | Synced => row_of_wire (localId r) u
        end :: rest
      else r :: merge_rows u next rest
  end.

(** The store after [upsertRemoteTransaction u]. *)
Definition merge (u : wire) (s : db) : db :=
  {| transactions := merge_rows u (nextLocalId s) (transactions s);
     nextLocalId := if bool_decide (w_id u ∈ ids s) then nextLocalId s
                    else nextLocalId s + 1;
     settings := settings s |}.

(** The store after the merges of a whole pull, in order. *)
Definition merge_all (us : list wire) (s : db) : db :=
  fold_left (λ s u, merge u s) us s.

(** ** Sample data

    Day 19792 is 2024-03-10. *)

Definition today : Z := 19792.

Definition income_500 (day : datestr) : new_tx :=
  {| n_id := JStr "7c9e6679-7425-40de-944b-e07fc1f90ae7";
     n_tipo := JStr "ingreso"; n_monto := Fin 500; n_fecha := day;
     n_descripcion := JStr "Venta de leche"; n_categoria := JStr "general";
     n_metodoPago := JStr "efectivo"; n_comprobante := JNull;
     n_usuario := JStr "Ana" |}.

Definition sample_new (i t : string) (m : Z) (cat : jsval) : new_tx :=
  {| n_id := JStr i; n_tipo := JStr t; n_monto := Fin m; n_fecha := Some today;
     n_descripcion := JStr EmptyString; n_categoria := cat;
     n_metodoPago := JStr "efectivo"; n_comprobante := JNull;
     n_usuario := JStr "Ana" |}.

Definition sample_remote (i : string) (m : Z) (created : jsval) : remote_tx :=
  {| r_id := JStr i; r_tipo := JStr "gasto"; r_monto := JNum (Fin m);
     r_fecha := Some today; r_descripcion := JUndefined;
     r_categoria := JUndefined; r_metodoPago := JUndefined;
     r_usuario := JUndefined; r_createdAt := created |}.

Definition online (post : list wire → post_outcome) (get : get_outcome) : env :=
  {| onLine := true; api_url := "https://rancho.example";
     post_sync := post; get_transactions := get |}.

(** The endpoint is unreachable: both calls throw. *)
Definition env_down : env := online (λ _, PostThrows) GetThrows.

(** The endpoint accepts every batch and holds the given ledger. *)
Definition env_up (remote : list remote_tx) : env :=
  online (λ _, PostStatus true) (GetJson (Some remote)).

(** Two readings of the clock, an hour apart. *)
Definition clock_a : clock := λ _, "2024-03-10T10:00:00.000Z".
Definition clock_b : clock := λ _, "2024-03-10T11:00:00.000Z".

Definition store_one_pending : db :=
  fst (addTransaction (income_500 (Some today)) "2024-03-10T09:00:00.000Z" empty_db).

Definition store_two_pending : db :=
  fst (addTransaction (sample_new "b" "gasto" 30 (JStr "general"))
                      "2024-03-10T09:30:00.000Z" store_one_pending).

(** A store holding one record of a kind that is neither 'ingreso' nor
    'gasto'; a pull copies [tipo] from the remote sheet as it finds it. *)
Definition store_otro : db :=
  fst (addTransaction (sample_new "x1" "otro" 7 (JStr "general"))
                      "2024-03-10T10:00:00.000Z" empty_db).

(** A store holding one pending record made before categories existed. *)
Definition store_legacy : db :=
  fst (addTransaction (sample_new "x2" "gasto" 40 JUndefined)
                      "2024-03-10T10:00:00.000Z" empty_db).

(** Scenario E: the local record "a" of amount 100 is pending, the remote
    ledger holds "a" with amount 200. *)
Definition store_pending_a : db :=
  fst (addTransaction (sample_new "a" "gasto" 100 (JStr "general"))
                      "2024-03-10T09:00:00.000Z" empty_db).

(** The pending row of [store_pending_a]. *)
Definition row_pending_a : tx :=
  {| localId := 1; id := JStr "a"; tipo := JStr "gasto"; monto := Fin 100;
     fecha := Some today; descripcion := JStr EmptyString;
     categoria := JStr "general"; metodoPago := JStr "efectivo";
     comprobante := JNull; usuario := JStr "Ana";
     syncStatus := Pending; createdAt := JStr "2024-03-10T09:00:00.000Z" |}.

Definition remote_a_200 : list remote_tx :=
  [sample_remote "a" 200 (JStr "2024-03-09T08:00:00.000Z")].

(** Scenario D: the remote ledger holds the records "a" and "b". *)
Definition remote_a_b : list remote_tx :=
  [sample_remote "a" 200 (JStr "2024-03-09T08:00:00.000Z");
   sample_remote "b" 15 (JStr "2024-03-09T08:30:00.000Z")].

(** The remote ledger holds one record that carries no [createdAt]. *)
Definition remote_unstamped : list remote_tx := [sample_remote "a" 200 JUndefined].

(** The same id is handed to [addTransaction] twice. *)
Definition ops_same_id_twice : list op :=
  [OpAdd (sample_new "a" "gasto" 100 (JStr "general")) "2024-03-10T09:00:00.000Z";
   OpAdd (sample_new "a" "gasto" 100 (JStr "general")) "2024-03-10T09:00:01.000Z"].

(** A record is added, the remote ledger, which holds it and one more, is
    pulled twice, and a second record is added. *)
Definition ops_add_pull_pull_add : list op :=
  [OpAdd (sample_new "a" "gasto" 100 (JStr "general")) "2024-03-10T09:00:00.000Z";
   OpPull (env_up (remote_a_200 ++ [sample_remote "b" 15 JUndefined])) clock_a;
   OpPull (env_up (remote_a_200 ++ [sample_remote "b" 15 JUndefined])) clock_b;
   OpAdd (sample_new "c" "ingreso" 60 (JStr "general")) "2024-03-10T12:00:00.000Z"].

(** The store after a first sync, at [clock_a], against a remote ledger whose
    one record carries no [createdAt]. *)
Definition store_synced_once : db :=
  fst (syncPendingTransactions (env_up remote_unstamped) clock_a empty_db).

(** The store after a first sync against [remote_a_200] with one record
    pending. *)
Definition store_synced_stamped : db :=
  fst (syncPendingTransactions (env_up remote_a_200) clock_a store_one_pending).

(** ** The store under sequences of calls *)

(** [db.transactions.clear()], the call behind "Borrar todos los datos" in
    settings.js: every row goes, the key generator keeps its count. *)
Definition clearTransactions (s : db) : db := with_transactions [] s.

(** The primary keys of the rows, in table order. *)
Definition keys (s : db) : list Z := map localId (transactions s).

(** The table is in key order, no key occurs twice, and the generator is
    ahead of every key in the table. *)
Definition keys_ok (s : db) : Prop :=
  StronglySorted Z.lt (keys s) ∧ Forall (λ k, k < nextLocalId s) (keys s).

(** The calls of db.js that write to the store, and the push. *)
Inductive store_op : Type :=
  | SAdd (transaction : new_tx) (now : string)
  | SDelete (key : Z)
  | SMark (localIds : list Z)
  | SSet (key : string) (value : jsval)
  | SClear
  | SPush (e : env).

Definition store_step (o : store_op) (s : db) : db :=
  match o with
  | SAdd transaction now => fst (addTransaction transaction now s)
  | SDelete key => deleteTransaction key s
  | SMark localIds => markAsSynced localIds s
  | SSet key value => setSetting key value s
  | SClear => clearTransactions s
  | SPush e => fst (pushPendingTransactions e s)
  end.

Definition store_run (ops : list store_op) (s : db) : db :=
  fold_left (λ s o, store_step o s) ops s.

(** The row [addTransaction] stores. *)
Definition new_row (transaction : new_tx) (now : string) (s : db) : tx :=
  {| localId := nextLocalId s;
     id := n_id transaction; tipo := n_tipo transaction;
     monto := n_monto transaction; fecha := n_fecha transaction;
     descripcion := n_descripcion transaction;
     categoria := n_categoria transaction;
     metodoPago := n_metodoPago transaction;
     comprobante := n_comprobante transaction;
     usuario := n_usuario transaction;
     syncStatus := Pending;
     createdAt := JStr now |}.

(** Two records are added, the first is deleted, the table is cleared, and
    a third record is added. *)
Definition ops_add_delete_clear : list store_op :=
  [SAdd (sample_new "a" "gasto" 100 (JStr "general")) "2024-03-10T09:00:00.000Z";
   SAdd (sample_new "b" "ingreso" 30 (JStr "general")) "2024-03-10T09:10:00.000Z";
   SDelete 1;
   SClear;
   SAdd (sample_new "c" "ingreso" 60 (JStr "general")) "2024-03-10T12:00:00.000Z"].

(** The key of the row is one of [localIds]: the test of
    [where('localId').anyOf(localIds)]. *)
Definition listed (localIds : list Z) (t : tx) : bool :=
  bool_decide (localId t ∈ localIds).

(** ** The endpoint setting (settings.js, sync.js) *)

(** [url.replace(/\/+$/, '')]: the string without its trailing slashes. *)
Fixpoint strip_trailing_slashes (url : string) : string :=
  match url with
  | EmptyString => EmptyString
  | String c rest =>
      let rest' := strip_trailing_slashes rest in
      if Ascii.eqb c "/"%char && String.eqb rest' EmptyString then EmptyString
      else String c rest'
  end.

(** [setApiUrl]: [localStorage.setItem('api_url', url)]. *)
Definition setApiUrl (url : string) (e : env) : env :=
  {| onLine := onLine e; api_url := url;
     post_sync := post_sync e; get_transactions := get_transactions e |}.

(** The click on "Guardar" in the endpoint dialog of settings.js, from the
    trimmed text of the input on: the trailing slashes go and the rest is
    stored. *)
Definition save_api_url (url : string) (e : env) : env :=
  let cleanUrl := strip_trailing_slashes url in
  setApiUrl cleanUrl e.

(** A run of [n] slashes. *)
Fixpoint slashes (n : nat) : string :=
  match n with
  | O => EmptyString
  | S n' => String "/"%char (slashes n')
  end.

(** The last character of the string is a slash. *)
Fixpoint ends_with_slash (url : string) : bool :=
  match url with
  | EmptyString => false
  | String c EmptyString => Ascii.eqb c "/"%char
  | String _ rest => ends_with_slash rest
  end.

(** ** utils.js: dates

    A [Date] is held by its time value.  Local time is UTC plus [tz]
    milliseconds, as in [setHours]. *)

(** The local calendar day of the instant [t], as a day number: what
    [getFullYear], [getMonth] and [getDate] tell together. *)
Definition local_day (tz t : Z) : Z := (t + tz) `div` msPerDay.

(** [new Date(y, m, d)] for the year, month and day of the local day [day]:
    its midnight in local time. *)
Definition local_midnight (tz day : Z) : Z := day * msPerDay - tz.

(** [d.toISOString().split('T')[0]]: the date in UTC. *)
Definition iso_date (t : Z) : datestr := Some (t `div` msPerDay).

(** [getToday], called at the instant [now]. *)
Definition getToday (now : Z) : datestr := iso_date now.

(** [d.getDay()] for a local day: 0 is Sunday; day 0, 1970-01-01, was a
    Thursday. *)
Definition getDay (day : Z) : Z := (day + 4) `mod` 7.

(** The result of [getPeriodDates]: its [start] and its [end]. *)
Record period_dates : Type := mk_period_dates {
  period_start : datestr;
  period_end : datestr;
}.

Section Calendar.

(** The first day of the month and of the year that hold a given day, which
    the engine finds for [new Date(y, m, 1)] and [new Date(y, 0, 1)]. *)
Variables month_start year_start : Z → Z.

(** [getPeriodDates], called at the instant [now]. *)
Definition getPeriodDates (period : string) (tz now : Z) : period_dates :=
  let today := local_day tz now in
  let start :=
    if String.eqb period "day" then today
    else if String.eqb period "week" then today - getDay today
    else if String.eqb period "month" then month_start today
    else if String.eqb period "year" then year_start today
    else month_start today in
  {| period_start := iso_date (local_midnight tz start);
     period_end := iso_date (local_midnight tz today) |}.

End Calendar.

(** What [formatRelativeDate] returns: 'Hoy', 'Ayer', `Hace ${diffDays} días`,
    or [formatDate(dateStr)], which is left to [Intl]. *)
Inductive relative_date : Type :=
  | Hoy
  | Ayer
  | Hace (diffDays : Z)
  | Formatted (dateStr : datestr).

(** [formatRelativeDate], called at the instant [now].  The two midnights
    are whole days apart, so [Math.round] of their distance in days is the
    exact quotient; on an invalid date every comparison fails. *)
Definition formatRelativeDate (tz now : Z) (dateStr : datestr) : relative_date :=
  match new_Date dateStr with
  | None => Formatted dateStr
  | Some date =>
      let today := local_midnight tz (local_day tz now) in
      let target := local_midnight tz (local_day tz date) in
      let diffDays := (today - target) `div` msPerDay in
      if diffDays =? 0 then Hoy
      else if diffDays =? 1 then Ayer
      else if diffDays <? 7 then Hace diffDays
      else Formatted dateStr
  end.

(** The proleptic Gregorian calendar of the engine: the day number of a
    civil date (months 1 to 12), and the civil date of a day number. *)
Definition days_from_civil (y m d : Z) : Z :=
  let y' := if m <=? 2 then y - 1 else y in
  let era := y' `div` 400 in
  let yoe := y' - era * 400 in
  let mp := (m + 9) `mod` 12 in
  let doy := (153 * mp + 2) `div` 5 + d - 1 in
  let doe := yoe * 365 + yoe `div` 4 - yoe `div` 100 + doy in
  era * 146097 + doe - 719468.

Definition civil_from_days (n : Z) : Z * Z * Z :=
  let z := n + 719468 in
  let era := z `div` 146097 in
  let doe := z - era * 146097 in
  let yoe := (doe - doe `div` 1460 + doe `div` 36524 - doe `div` 146096) `div` 365 in
  let doy := doe - (365 * yoe + yoe `div` 4 - yoe `div` 100) in
  let mp := (5 * doy + 2) `div` 153 in
  let d := doy - (153 * mp + 2) `div` 5 + 1 in
  let m := if mp <? 10 then mp + 3 else mp - 9 in
  (yoe + era * 400 + (if m <=? 2 then 1 else 0), m, d).

Definition civil_month_start (n : Z) : Z :=
  let '(y, m, _) := civil_from_days n in days_from_civil y m 1.

Definition civil_year_start (n : Z) : Z :=
  let '(y, _, _) := civil_from_days n in days_from_civil y 1 1.

(** Two zones: central Mexico, six hours behind UTC, and central Europe, one
    hour ahead; and two instants of 2024-03-10 in UTC: 15:00 and 23:30. *)
Definition tz_mexico : Z := - 6 * 3600000.
Definition tz_europe : Z := 3600000.
Definition afternoon_utc : Z := today * msPerDay + 15 * 3600000.
Definition late_utc : Z := today * msPerDay + 23 * 3600000 + 1800000.

(** By how many days the UTC date of a local midnight differs from the
    local date: 0 from UTC westwards, -1 east of UTC. *)
Definition zone_shift (tz : Z) : Z := (- tz) `div` msPerDay.

(** The date of the row is the day [day]. *)
Definition dated_on (day : Z) (t : tx) : bool := bool_decide (fecha t = Some day).

(** ** reports.js: the data of the bar chart *)

(** An entry of [dailyData]: [{ ingresos, gastos }]. *)
Record day_totals : Type := mk_day_totals {
  day_ingresos : jsnum;
  day_gastos : jsnum;
}.

(** One turn of the [forEach] of [prepareChartData] (the [for ... of] of
    [aggregateByDay] in the later reports.js): the entry of the day is made
    if there is none, then the amount is added to its side. *)
Definition daily_step (dailyData : gmap datestr day_totals) (t : tx)
    : gmap datestr day_totals :=
  let day := fecha t in
  let dailyData :=
    match dailyData !! day with
    | None => <[day := {| day_ingresos := Fin 0; day_gastos := Fin 0 |}]> dailyData
    | Some _ => dailyData
    end in
  alter (λ entry,
           if is_ingreso t
           then {| day_ingresos := js_add (day_ingresos entry) (monto t);
                   day_gastos := day_gastos entry |}
           else {| day_ingresos := day_ingresos entry;
                   day_gastos := js_add (day_gastos entry) (monto t) |})
        day dailyData.

(** The order [sort()] puts the keys in: dates YYYY-MM-DD, which sort as
    text the way their days do, before a key that is no date. *)
Definition datestr_le (a b : datestr) : Prop :=
  match a, b with
  | Some x, Some y => x ≤ y
  | Some _, None => True
  | None, Some _ => False
  | None, None => True
  end.

#[global] Instance datestr_le_dec : RelDecision datestr_le.
Proof. intros [x|] [y|]; simpl; apply _. Defined.

(** The result of [prepareChartData]. *)
Record chart_data : Type := mk_chart_data {
  labels : list string;
  chart_ingresos : list jsnum;
  chart_gastos : list jsnum;
}.

(** [Object.keys(dailyData).sort()]. *)
Definition sorted_days (dailyData : gmap datestr day_totals) : list datestr :=
  merge_sort datestr_le (map fst (map_to_list dailyData)).

(** [dailyData[d]] for a key of [dailyData]. *)
Definition day_entry (dailyData : gmap datestr day_totals) (d : datestr) : day_totals :=
  default {| day_ingresos := Fin 0; day_gastos := Fin 0 |} (dailyData !! d).

Section ChartLabels.

(** The label of a day, which [toLocaleDateString] makes. *)
Variable label : datestr → string.

(** [prepareChartData] ([aggregateByDay] in the later reports.js). *)
Definition prepareChartData (transactions : list tx) : chart_data :=
  let dailyData := fold_left daily_step transactions ∅ in
  let sortedDays := sorted_days dailyData in
  {| labels := map label sortedDays;
     chart_ingresos := map (λ d, day_ingresos (day_entry dailyData d)) sortedDays;
     chart_gastos := map (λ d, day_gastos (day_entry dailyData d)) sortedDays |}.

End ChartLabels.

(** The sum of a list of numbers. *)
Fixpoint sum_list (l : list jsnum) : jsnum :=
  match l with
  | [] => Fin 0
  | x :: rest => js_add x (sum_list rest)
  end.

(** The row is dated [d] (or, for [None], has no date). *)
Definition has_date (d : datestr) (t : tx) : bool := bool_decide (fecha t = d).

(** A label for the samples. *)
Definition label_sample (d : datestr) : string :=
  match d with Some _ => "dia" | None => "Invalid Date" end.

(** The entry the rows of one day come to: their two totals. *)
Definition entry_of (totals : jsnum * jsnum) : day_totals :=
  {| day_ingresos := fst totals; day_gastos := snd totals |}.

(** ** utils.js: [generateId] *)

(** ToInt32 of a number: the fraction is dropped and the integer wraps to
    32 bits; this is [x | 0]. *)
Definition to_int32 (x : Q) : Z :=
  let n := if Qle_bool 0 x then Qfloor x else Qceiling x in
  (n + 2 ^ 31) mod 2 ^ 32 - 2 ^ 31.

Definition hex_char (d : Z) : ascii :=
  match d with
  | 0 => "0" | 1 => "1" | 2 => "2" | 3 => "3" | 4 => "4" | 5 => "5"
  | 6 => "6" | 7 => "7" | 8 => "8" | 9 => "9" | 10 => "a" | 11 => "b"
  | 12 => "c" | 13 => "d" | 14 => "e" | _ => "f"
  end%char.

Fixpoint hex_digits (fuel : nat) (v : Z) (acc : string) : string :=
  match fuel with
  | O => acc
  | S fuel =>
      let acc := String (hex_char (v mod 16)) acc in
      if v / 16 =? 0 then acc else hex_digits fuel (v / 16) acc
  end.

(** [v.toString(16)] of an integer. *)
Definition toString16 (v : Z) : string :=
  if v <? 0
  then String "-"%char (hex_digits (S (Z.to_nat (Z.log2 (- v)))) (- v) EmptyString)
  else hex_digits (S (Z.to_nat (Z.log2 v))) v EmptyString.

(** The callback of the replacement, on the match [c] and the reading
    [random] of [Math.random()]. *)
Definition uuid_digit (random : Q) (c : ascii) : string :=
  let r := to_int32 (random * (16 # 1))%Q in
  let v := if Ascii.eqb c "x" then r else Z.lor (Z.land r 3) 8 in
  toString16 v.

(** [template.replace(/[xy]/g, ...)]: the matches are replaced from left to
    right, each with a reading of [Math.random] of its own; [random n] is the
    reading of the n-th call. *)
Fixpoint replace_xy (random : nat → Q) (n : nat) (template : string) : string :=
  match template with
  | EmptyString => EmptyString
  | String c rest =>
      if Ascii.eqb c "x" || Ascii.eqb c "y"
      then uuid_digit (random n) c +:+ replace_xy random (S n) rest
      else String c (replace_xy random n rest)
  end.

(** [generateId]; [randomUUID] is [crypto.randomUUID] where the browser has
    it, with the string it returns. *)
Definition generateId (randomUUID : option string) (random : nat → Q) : string :=
  match randomUUID with
  | Some uuid => uuid
  | None => replace_xy random 0 "xxxxxxxx-xxxx-4xxx-yxxx-xxxxxxxxxxxx"
  end.

Definition is_hex (c : ascii) : bool :=
  existsb (Ascii.eqb c) (String.list_ascii_of_string "0123456789abcdef").

Definition is_variant (c : ascii) : bool :=
  existsb (Ascii.eqb c) (String.list_ascii_of_string "89ab").

(** [s] has the shape of [pattern]: a lower-case hexadecimal digit for each
    [x], one of 8, 9, a, b for each [y], and the character of the pattern
    itself anywhere else. *)
Fixpoint has_shape (pattern s : string) : bool :=
  match pattern, s with
  | EmptyString, EmptyString => true
  | String p pattern, String c s =>
      (if Ascii.eqb p "x" then is_hex c
       else if Ascii.eqb p "y" then is_variant c
       else Ascii.eqb p c)
      && has_shape pattern s
  | _, _ => false
  end.

(** The text form of a version-4 UUID. *)
Definition is_uuid_v4 (s : string) : bool :=
  has_shape "xxxxxxxx-xxxx-4xxx-yxxx-xxxxxxxxxxxx" s.

Definition random_sample (n : nat) : Q := (Z.of_nat n mod 16) # 16.

(** ** form.js: the form of a new record *)

(** What [renderForm] fixes for its handlers. *)
Record form_view : Type := mk_form_view {
  form_tipo : jsval;
  isIngreso : bool;
  currentUser : jsval;
}.

(** The head of [renderForm]: [params.tipo || 'ingreso'], the heading that
    goes with it and the user read from the settings. *)
Definition renderForm (params_tipo : jsval) (s : db) : form_view :=
  let tipo := js_or params_tipo (JStr "ingreso") in
  {| form_tipo := tipo;
     isIngreso := bool_decide (tipo = JStr "ingreso");
     currentUser := js_or (getSetting "usuario" s) (JStr "Usuario") |}.

(** The state of the form when it is submitted: [monto_value] is
    [parseFloat(montoInput.value)], [fecha_value] the value of the date
    input, a date or the empty string ([None]), [descripcion_value] the
    description after [trim()]. *)
Record form_input : Type := mk_form_input {
  monto_value : jsnum;
  fecha_value : option Z;
  descripcion_value : string;
  categoria_value : string;
  metodo_value : string;
  photoData : jsval;
}.

(** What the handler reads from the browser: [crypto.randomUUID] and
    [Math.random] for the id, the instant of [getToday()] and the reading of
    the clock in [addTransaction]. *)
Record form_env : Type := mk_form_env {
  f_randomUUID : option string;
  f_random : nat → Q;
  f_now : Z;
  f_stamp : string;
}.

Inductive submit_outcome : Type :=
  | SubmitRejected
  | SubmitSaved (key : Z).

(** [a <= b] on numbers. *)
Definition js_le (a b : jsnum) : bool :=
  match a, b with
  | Fin x, Fin y => x <=? y
  | _, _ => false
  end.

Definition isNaN (a : jsnum) : bool :=
  match a with NaN => true | Fin _ => false end.

(** The submit handler of the form.  [addTransaction] does not fail in the
    model of the store, so the [catch] branch is not reached. *)
Definition submit (view : form_view) (input : form_input) (e : form_env) (s : db)
    : db * submit_outcome :=
  let monto := monto_value input in
  if negb (truthy (JNum monto)) || js_le monto (Fin 0) || isNaN monto
  then (s, SubmitRejected)
  else
    let transaction :=
      {| n_id := JStr (generateId (f_randomUUID e) (f_random e));
         n_tipo := form_tipo view;
         n_monto := monto;
         n_fecha := match fecha_value input with
                    | Some d => Some d
                    | None => getToday (f_now e)
                    end;
         n_descripcion := JStr (descripcion_value input);
         n_categoria := JStr (categoria_value input);
         n_metodoPago := JStr (metodo_value input);
         n_comprobante := photoData input;
         n_usuario := currentUser view |} in
    let (s', key) := addTransaction transaction (f_stamp e) s in
    (s', SubmitSaved key).

(** One use of the form: it is opened for [params.tipo], filled in and
    submitted. *)
Record form_use : Type := mk_form_use {
  use_tipo : jsval;
  use_input : form_input;
  use_env : form_env;
}.

Definition form_step (s : db) (u : form_use) : db :=
  fst (submit (renderForm (use_tipo u) s) (use_input u) (use_env u) s).

Definition form_run (uses : list form_use) (s : db) : db :=
  fold_left form_step uses s.

(** The amount is a number above zero. *)
Definition positive (n : jsnum) : Prop := ∃ z, n = Fin z ∧ 0 < z.

Definition sample_input (m : jsnum) (day : option Z) : form_input :=
  {| monto_value := m; fecha_value := day; descripcion_value := "becerros";
     categoria_value := "ganado"; metodo_value := "efectivo";
     photoData := JNull |}.

Definition sample_env : form_env :=
  {| f_randomUUID := None; f_random := random_sample;
     f_now := 1710082800000; f_stamp := "2024-03-10T15:00:00.000Z" |}.

Definition sample_uses : list form_use :=
  [ {| use_tipo := JStr "ingreso"; use_input := sample_input (Fin 500) None;
       use_env := sample_env |};
    {| use_tipo := JStr "gasto"; use_input := sample_input NaN (Some 19792);
       use_env := sample_env |};
    {| use_tipo := JUndefined; use_input := sample_input (Fin (-3)) (Some 19792);
       use_env := sample_env |};
    {| use_tipo := JStr "gasto"; use_input := sample_input (Fin 30) (Some 19790);
       use_env := sample_env |} ].

(** ** settings.js: the manual sync *)

(** The parts of the success toast: `⬆ n enviada(s)` and `⬇ n recibida(s)`. *)
Inductive sync_part : Type :=
  | Enviadas (n : nat)
  | Recibidas (n : nat).

(** The toasts of the handler: 'Configura la URL del servidor primero',
    'Sin conexión a internet', the parts joined, 'No se pudo sincronizar' and
    'Todo está sincronizado'. *)
Inductive sync_toast : Type :=
  | ToastConfigure
  | ToastOffline
  | ToastParts (parts : list sync_part)
  | ToastFailed
  | ToastAllSynced.

(** The text left in the status line: `n pendiente(s)` or
    'Todo sincronizado'. *)
Inductive sync_status_text : Type :=
  | StatusPending (n : nat)
  | StatusAllSynced.

Record sync_report : Type := mk_sync_report {
  toast : sync_toast;
  status_text : option sync_status_text;
}.

(** The click on "Sincronizar" in the settings: the store after it and what
    the user is shown.  [syncPendingTransactions] catches what its calls
    throw, so the [catch] of the handler is not reached. *)
Definition manual_sync (e : env) (now : clock) (s : db) : db * sync_report :=
  let apiUrl := api_url e in
  if String.eqb apiUrl EmptyString
  then (s, {| toast := ToastConfigure; status_text := None |})
  else if negb (onLine e)
  then (s, {| toast := ToastOffline; status_text := None |})
  else
    let '(s', result) := syncPendingTransactions e now s in
    let parts : list sync_part := [] in
    let parts := if Nat.ltb 0 (sync_synced result)
                 then (parts ++ [Enviadas (sync_synced result)])%list else parts in
    let parts := if Nat.ltb 0 (sync_pulled result)
                 then (parts ++ [Recibidas (sync_pulled result)])%list else parts in
    if Nat.ltb 0 (length parts)
    then (s', {| toast := ToastParts parts;
                 status_text := Some (if Nat.ltb 0 (sync_pending result)
                                      then StatusPending (sync_pending result)
                                      else StatusAllSynced) |})
    else if Nat.ltb 0 (sync_pending result)
    then (s', {| toast := ToastFailed;
                 status_text := Some (StatusPending (sync_pending result)) |})
    else (s', {| toast := ToastAllSynced; status_text := Some StatusAllSynced |}).

(** The same surroundings with another answer to GET /api/transactions. *)
Definition with_get_transactions (answer : get_outcome) (e : env) : env :=
  {| onLine := onLine e; api_url := api_url e;
     post_sync := post_sync e; get_transactions := answer |}.

(** The endpoint takes every batch but fails to deliver the ledger. *)
Definition env_pull_down : env := online (λ _, PostStatus true) GetNotOk.

(** * Properties *)

Local Close Scope string_scope.

(** Does the row [r] carry the id of the remote record [u]? *)
Tactic Notation "case_id" constr(r) constr(u) "as" ident(H) :=
  destruct (bool_decide_reflect (id r = w_id u)) as [H|H].

(** Facts about the ids present in the store, for [eauto with ledger]. *)
Create HintDb ledger.

(** ** Arithmetic of amounts *)

Lemma js_add_assoc (a b c : jsnum) : js_add (js_add a b) c = js_add a (js_add b c).
Proof. destruct a, b, c; simpl; try reflexivity. f_equal. lia. Qed.

Lemma js_add_0_l (a : jsnum) : js_add (Fin 0) a = a.
Proof. destruct a; reflexivity. Qed.

Lemma js_add_0_r (a : jsnum) : js_add a (Fin 0) = a.
Proof. destruct a; simpl; [reflexivity | f_equal; lia]. Qed.

(** ** The summaries *)

(** The running totals from any start: each total grows by the sum of its
    own class of rows. *)
Lemma tally_from (l : list tx) (a b : jsnum) :
  fold_left (λ acc t,
               if is_ingreso t then (js_add (fst acc) (monto t), snd acc)
               else (fst acc, js_add (snd acc) (monto t)))
            l (a, b)
  = (js_add a (sum_montos (List.filter is_ingreso l)),
     js_add b (sum_montos (List.filter not_ingreso l))).
Proof.
  revert a b. induction l as [|t l IH]; intros a b; simpl.
  - by rewrite !js_add_0_r.
  - unfold not_ingreso at 1. destruct (is_ingreso t); simpl.
    + rewrite IH. by rewrite js_add_assoc.
    + rewrite IH. by rewrite js_add_assoc.
Qed.

Lemma tally_sums (l : list tx) :
  tally l = (sum_montos (List.filter is_ingreso l),
             sum_montos (List.filter not_ingreso l)).
Proof. unfold tally. rewrite tally_from. by rewrite !js_add_0_l. Qed.

Lemma is_ingreso_spec (t : tx) : is_ingreso t = true ↔ tipo t = JStr "ingreso".
Proof. unfold is_ingreso. apply bool_decide_eq_true. Qed.

(** ** Date ranges *)

Lemma setHours_start (tz ds : Z) :
  ∃ start, setHours tz 0 0 0 0 (new_Date (Some ds)) = Some start
           ∧ (ds - 1) * msPerDay < start ≤ ds * msPerDay.
Proof.
  eexists. split; [reflexivity|].
  unfold msPerDay in *.
  pose proof (Z.div_mod (ds * 86400000 + tz) 86400000 ltac:(lia)) as Hdm.
  pose proof (Z.mod_pos_bound (ds * 86400000 + tz) 86400000 ltac:(lia)) as Hm.
  lia.
Qed.

Lemma setHours_end (tz de : Z) :
  ∃ end_, setHours tz 23 59 59 999 (new_Date (Some de)) = Some end_
          ∧ de * msPerDay ≤ end_ < (de + 1) * msPerDay.
Proof.
  eexists. split; [reflexivity|].
  unfold msPerDay in *.
  pose proof (Z.div_mod (de * 86400000 + tz) 86400000 ltac:(lia)) as Hdm.
  pose proof (Z.mod_pos_bound (de * 86400000 + tz) 86400000 ltac:(lia)) as Hm.
  lia.
Qed.

Lemma in_range_dated_within (tz ds de : Z) (t : tx) :
  (let d := new_Date (fecha t) in
   date_ge d (setHours tz 0 0 0 0 (new_Date (Some ds)))
   && date_le d (setHours tz 23 59 59 999 (new_Date (Some de))))
  = dated_within ds de t.
Proof.
  destruct (setHours_start tz ds) as (start & -> & Hs).
  destruct (setHours_end tz de) as (end_ & -> & He).
  unfold dated_within. destruct (fecha t) as [d|]; simpl; [|reflexivity].
  unfold msPerDay in *.
  destruct (Z.leb_spec ds d), (Z.leb_spec d de),
    (Z.leb_spec start (d * 86400000)), (Z.leb_spec (d * 86400000) end_);
    simpl; try reflexivity; lia.
Qed.

Lemma filter_ext_eq {A} (f g : A → bool) (l : list A) :
  (∀ x, f x = g x) → List.filter f l = List.filter g l.
Proof. intros E. induction l as [|x l IH]; simpl; [done|]. by rewrite E, IH. Qed.

Lemma getTransactionsByDateRange_filter (tz ds de : Z) (s : db) :
  getTransactionsByDateRange tz (Some ds) (Some de) s
  = List.filter (dated_within ds de) (transactions s).
Proof.
  unfold getTransactionsByDateRange. apply filter_ext_eq.
  intros t. apply in_range_dated_within.
Qed.

(** [C7] For every store and every pair of dates, [getTransactionsByDateRange]
    returns exactly the rows whose [fecha] is one of the calendar days from
    [start] to [end], whatever the offset of local time; the choice reads
    [fecha] and never [createdAt]; a row dated [start] or [end] is among
    them. *)
Theorem date_range_is_calendar_days (tz ds de : Z) (s : db) :
  getTransactionsByDateRange tz (Some ds) (Some de) s
    = List.filter (dated_within ds de) (transactions s)
  ∧ (∀ t c, dated_within ds de (set_createdAt c t) = dated_within ds de t)
  ∧ (∀ t, t ∈ transactions s → ds ≤ de →
          fecha t = Some ds ∨ fecha t = Some de →
          t ∈ getTransactionsByDateRange tz (Some ds) (Some de) s).
Proof.
  pose proof (getTransactionsByDateRange_filter tz ds de s) as E.
  split; [exact E|]. split; [reflexivity|].
  intros t Hin Hle Hd. rewrite E. apply list_elem_of_In, filter_In.
  split; [by apply list_elem_of_In|].
  unfold dated_within. destruct Hd as [-> | ->].
  - apply andb_true_iff. split; apply Z.leb_le; lia.
  - apply andb_true_iff. split; apply Z.leb_le; lia.
Qed.

Lemma getSummary_eq (tz : Z) (startDate endDate : datestr) (s : db) :
  let rows := getTransactionsByDateRange tz startDate endDate s in
  getSummary tz startDate endDate s
  = {| totalIngresos := sum_montos (List.filter is_ingreso rows);
       totalGastos := sum_montos (List.filter not_ingreso rows);
       balance := js_sub (sum_montos (List.filter is_ingreso rows))
                         (sum_montos (List.filter not_ingreso rows));
       transacciones := length rows |}.
Proof. intros rows. unfold getSummary. fold rows. by rewrite tally_sums. Qed.

Lemma filter_not_ingreso_gasto (l : list tx) :
  (∀ t, t ∈ l → is_ingreso t = true ∨ is_gasto t = true) →
  List.filter not_ingreso l = List.filter is_gasto l.
Proof.
  induction l as [|t l IH]; intros Hkinds; simpl; [done|].
  rewrite IH by (intros t' Ht'; apply Hkinds; by right).
  replace (is_gasto t) with (not_ingreso t); [done|].
  unfold not_ingreso, is_ingreso, is_gasto.
  destruct (Hkinds t ltac:(by left)) as [Hi | Hg].
  - apply is_ingreso_spec in Hi. rewrite Hi.
    rewrite bool_decide_eq_true_2 by done.
    by rewrite bool_decide_eq_false_2 by discriminate.
  - apply bool_decide_eq_true in Hg. rewrite Hg.
    rewrite bool_decide_eq_false_2 by discriminate.
    by rewrite bool_decide_eq_true_2 by done.
Qed.



Lemma not_ingreso_spec (t : tx) : not_ingreso t = true ↔ tipo t ≠ JStr "ingreso".
Proof.
  unfold not_ingreso, is_ingreso. rewrite negb_true_iff.
  apply bool_decide_eq_false.
Qed.

Lemma tally_snoc (l : list tx) (t : tx) :
  tally (l ++ [t])
  = if is_ingreso t then (js_add (fst (tally l)) (monto t), snd (tally l))
    else (fst (tally l), js_add (snd (tally l)) (monto t)).
Proof. unfold tally. by rewrite fold_left_app. Qed.


(** ** Push *)

Lemma sync_enabled (e : env) :
  onLine e = true → api_url e ≠ EmptyString → sync_disabled e = false.
Proof.
  intros Hon Hurl. unfold sync_disabled, getApiUrl. rewrite Hon. simpl.
  apply String.eqb_neq. exact Hurl.
Qed.

Lemma length_eqb_0 {A} (l : list A) : Nat.eqb (length l) 0 = true → l = [].
Proof. destruct l; [done | discriminate]. Qed.

(** [C3] With the call made (the device is online and the endpoint is
    configured), if the POST throws or its response is not ok, the push
    leaves the store as it was, so no [syncStatus] changes, and returns
    [synced = 0] with [pending] the number of pending records. *)
Theorem push_failure_changes_nothing (e : env) (s : db) :
  onLine e = true →
  api_url e ≠ EmptyString →
  post_sync e (push_body (getPendingTransactions s)) ≠ PostStatus true →
  pushPendingTransactions e s
  = (s, {| synced := 0; pending := length (getPendingTransactions s) |}).
Proof.
  intros Hon Hurl Hfail. unfold pushPendingTransactions.
  rewrite (sync_enabled e Hon Hurl).
  destruct (Nat.eqb (length (getPendingTransactions s)) 0) eqn:Hlen.
  - by rewrite (length_eqb_0 _ Hlen).
  - destruct (post_sync e (push_body (getPendingTransactions s))) as [|[|]];
      [reflexivity | by destruct Hfail | reflexivity].
Qed.

(** The network is down while two records wait. *)
Lemma push_failure_changes_nothing_witness :
  pushPendingTransactions env_down store_two_pending
  = (store_two_pending, {| synced := 0; pending := 2 |}).
Proof.
  apply (push_failure_changes_nothing env_down store_two_pending);
    [reflexivity | discriminate | discriminate].
Defined.

(** Scenario C: the endpoint is unreachable, one record waits; the push
    reports it as still pending and it stays pending. *)
Example scenario_unreachable_endpoint :
  pushPendingTransactions env_down store_one_pending
  = (store_one_pending, {| synced := 0; pending := 1 |})
  ∧ map syncStatus (transactions store_one_pending) = [Pending].
Proof. split; reflexivity. Qed.

Lemma set_syncStatus_same (t : tx) :
  set_syncStatus (syncStatus t) t = t.
Proof. by destruct t. Qed.

Lemma getPending_all_synced (rows : list tx) :
  List.filter is_pending (map (set_syncStatus Synced) rows) = [].
Proof. induction rows as [|t l IH]; simpl; [done|]. exact IH. Qed.

Lemma markAsSynced_pending (s : db) :
  transactions (markAsSynced (map localId (getPendingTransactions s)) s)
  = map (set_syncStatus Synced) (transactions s).
Proof.
  unfold markAsSynced. simpl. apply map_ext_in. intros t Hin.
  destruct (syncStatus t) eqn:Hst.
  - rewrite bool_decide_eq_true_2; [done|].
    apply list_elem_of_fmap. exists t. split; [done|].
    unfold getPendingTransactions. apply list_elem_of_In, filter_In.
    split; [done|]. unfold is_pending. by apply bool_decide_eq_true.
  - rewrite <- Hst, set_syncStatus_same. by destruct (bool_decide _).
Qed.

(** [C4] With at least one pending record, the device online, the endpoint
    configured and the POST answered ok, the push returns [synced] equal to
    the size of the batch and [pending = 0]; afterwards every row is the row
    it was with [syncStatus = 'synced'], so every record of the batch is
    synced, and [getPendingTransactions] is empty. *)
Theorem push_success_marks_batch (e : env) (s : db) :
  onLine e = true →
  api_url e ≠ EmptyString →
  getPendingTransactions s ≠ [] →
  post_sync e (push_body (getPendingTransactions s)) = PostStatus true →
  snd (pushPendingTransactions e s)
  = {| synced := length (getPendingTransactions s); pending := 0 |}
  ∧ transactions (fst (pushPendingTransactions e s))
    = map (set_syncStatus Synced) (transactions s)
  ∧ (∀ t, t ∈ getPendingTransactions s →
          set_syncStatus Synced t ∈ transactions (fst (pushPendingTransactions e s)))
  ∧ getPendingTransactions (fst (pushPendingTransactions e s)) = [].
Proof.
  intros Hon Hurl Hne Hok. unfold pushPendingTransactions.
  rewrite (sync_enabled e Hon Hurl).
  destruct (Nat.eqb (length (getPendingTransactions s)) 0) eqn:Hlen.
  { by destruct Hne; apply length_eqb_0. }
  rewrite Hok. cbv beta iota zeta. cbn [fst snd]. rewrite length_map.
  split; [reflexivity|]. split; [apply markAsSynced_pending|]. split.
  - intros t Ht. rewrite markAsSynced_pending.
    apply list_elem_of_fmap. exists t. split; [done|].
    unfold getPendingTransactions in Ht.
    apply list_elem_of_In, filter_In in Ht. apply list_elem_of_In, Ht.
  - unfold getPendingTransactions at 1. rewrite markAsSynced_pending.
    apply getPending_all_synced.
Qed.

(** Scenario B: one pending record, the endpoint reachable. *)
Lemma push_success_marks_batch_witness :
  snd (pushPendingTransactions (env_up []) store_one_pending)
  = {| synced := 1; pending := 0 |}
  ∧ getPendingTransactions (fst (pushPendingTransactions (env_up []) store_one_pending))
    = [].
Proof.
  destruct (push_success_marks_batch (env_up []) store_one_pending)
    as (Hr & _ & _ & Hp);
    [reflexivity | discriminate | discriminate | reflexivity |].
  split; [exact Hr | exact Hp].
Defined.

Lemma wire_of_tx_default (t : tx) : wire_of_tx t = project_default_categoria t.
Proof. reflexivity. Qed.

Lemma wire_of_tx_same_fields (a b : tx) :
  same_wire_fields a b → wire_of_tx a = wire_of_tx b.
Proof.
  unfold same_wire_fields, project, wire_of_tx. intros H.
  injection H as -> -> -> -> -> -> -> -> ->. reflexivity.
Qed.

(** [C6], as the claim words it, fails on a pending record without a
    category: the body carries 'general', the record does not. *)
Lemma push_body_defaults_categoria :
  push_body (getPendingTransactions store_legacy)
  ≠ map project (getPendingTransactions store_legacy).
Proof. intros H. vm_compute in H. discriminate H. Qed.

(** [C6], as the code has it.  The body of the push request is, record by
    pending record, the projection onto the nine wire fields with a falsy
    category replaced by 'general' (the plain projection when the category
    is truthy); it does not depend on [localId], [syncStatus] or
    [comprobante]; and it is the one thing the endpoint is asked about. *)
Theorem push_body_wire_fields (s : db) :
  push_body (getPendingTransactions s)
  = map project_default_categoria (getPendingTransactions s)
  ∧ (∀ t, truthy (categoria t) = true → wire_of_tx t = project t)
  ∧ (∀ l1 l2, Forall2 same_wire_fields l1 l2 → push_body l1 = push_body l2)
  ∧ (∀ e1 e2,
       onLine e1 = onLine e2 → api_url e1 = api_url e2 →
       post_sync e1 (map project_default_categoria (getPendingTransactions s))
       = post_sync e2 (map project_default_categoria (getPendingTransactions s)) →
       pushPendingTransactions e1 s = pushPendingTransactions e2 s).
Proof.
  split; [reflexivity|]. split; [|split].
  - intros t Ht. unfold wire_of_tx, project, js_or. by rewrite Ht.
  - intros l1 l2 H. unfold push_body.
    induction H as [|a b l1 l2 Hab _ IH]; simpl; [done|].
    by rewrite (wire_of_tx_same_fields a b Hab), IH.
  - intros e1 e2 Hon Hurl Hpost. unfold pushPendingTransactions, sync_disabled, getApiUrl.
    rewrite Hon, Hurl. unfold push_body.
    rewrite (map_ext _ _ wire_of_tx_default). by rewrite Hpost.
Qed.

(** ** Pull: what reaches the merge *)

Lemma js_or_defined (a b : jsval) : b ≠ JUndefined → js_or a b ≠ JUndefined.
Proof.
  intros Hb. unfold js_or. destruct (truthy a) eqn:Ha; [|exact Hb].
  by destruct a.
Qed.

Lemma js_or_missing (a b : jsval) : a = JUndefined → js_or a b = b.
Proof. by intros ->. Qed.

Lemma pull_loop_fold (upsert : wire → db → db * bool) (now : clock)
    (L : list remote_tx) (i : nat) (s : db) (inserted : nat) :
  pull_loop upsert now i L s inserted
  = fold_left (merge_step upsert) (upsert_calls now i L) (s, inserted).
Proof.
  revert i s inserted. induction L as [|t L IH]; intros i s inserted; simpl.
  - reflexivity.
  - destruct (truthy (r_id t)); simpl.
    + unfold merge_step at 2. simpl.
      destruct (upsert (normalize (now i) t) s) as [s' wasNew]. apply IH.
    + apply IH.
Qed.

Lemma upsert_calls_origin (now : clock) (L : list remote_tx) (i : nat) (u : wire) :
  u ∈ upsert_calls now i L →
  ∃ k t, L !! k = Some t ∧ truthy (r_id t) = true
         ∧ u = normalize (now (i + k)%nat) t.
Proof.
  revert i. induction L as [|t L IH]; intros i Hu; simpl in Hu.
  - by apply elem_of_nil in Hu.
  - destruct (truthy (r_id t)) eqn:Hid.
    + apply elem_of_cons in Hu as [-> | Hu].
      * exists 0%nat, t. by rewrite Nat.add_0_r.
      * destruct (IH _ Hu) as (k & t' & Hk & Ht' & ->).
        exists (S k), t'. by rewrite Nat.add_succ_r.
    + destruct (IH _ Hu) as (k & t' & Hk & Ht' & ->).
      exists (S k), t'. by rewrite Nat.add_succ_r.
Qed.


(** ** The merge *)

Lemma upsert_rows_None (u : wire) (rows : list tx) :
  upsert_rows u rows = None ↔ w_id u ∉ map id rows.
Proof.
  induction rows as [|r rows IH]; simpl.
  - split; [intros _; apply not_elem_of_nil | done].
  - rewrite not_elem_of_cons. case_bool_decide as Hid.
    + split; [done | intros [Hne _]; by destruct Hne].
    + destruct (upsert_rows u rows); simpl.
      * split; [done | intros [_ Hn]; by apply IH in Hn].
      * split; [intros _; split; [congruence | by apply IH] | done].
Qed.

Lemma upsert_rows_merge (u : wire) (next : Z) (rows : list tx) :
  merge_rows u next rows
  = match upsert_rows u rows with
    | Some rows' => rows'
    | None => rows ++ [row_of_wire next u]
    end.
Proof.
  induction rows as [|r rows IH]; simpl; [done|].
  case_bool_decide; [by destruct (syncStatus r)|].
  rewrite IH. by destruct (upsert_rows u rows).
Qed.

Lemma upsertRemoteTransaction_merge (u : wire) (s : db) :
  upsertRemoteTransaction u s = (merge u s, negb (bool_decide (w_id u ∈ ids s))).
Proof.
  unfold upsertRemoteTransaction, merge. rewrite upsert_rows_merge.
  destruct (upsert_rows u (transactions s)) as [rows'|] eqn:E.
  - assert (Hin : w_id u ∈ ids s).
    { destruct (decide (w_id u ∈ ids s)) as [|Hn]; [done|].
      apply upsert_rows_None in Hn. unfold ids in *. congruence. }
    by rewrite bool_decide_eq_true_2.
  - apply upsert_rows_None in E. by rewrite bool_decide_eq_false_2.
Qed.

Lemma merge_rows_ids (u : wire) (next : Z) (rows : list tx) :
  map id (merge_rows u next rows)
  = if bool_decide (w_id u ∈ map id rows) then map id rows
    else map id rows ++ [w_id u].
Proof.
  induction rows as [|r rows IH]; cbn [merge_rows map].
  - rewrite bool_decide_eq_false_2; [done | apply not_elem_of_nil].
  - case_id r u as Hid; cbn [map].
    + rewrite bool_decide_eq_true_2 by (rewrite <- Hid; by left).
      destruct (syncStatus r); simpl; congruence.
    + rewrite IH.
      destruct (bool_decide_reflect (w_id u ∈ map id rows)) as [Hin|Hin].
      * by rewrite bool_decide_eq_true_2 by (by right).
      * rewrite bool_decide_eq_false_2; [done|].
        rewrite not_elem_of_cons. split; [congruence | done].
Qed.

Lemma merge_ids (u : wire) (s : db) :
  ids (merge u s)
  = if bool_decide (w_id u ∈ ids s) then ids s else ids s ++ [w_id u].
Proof. unfold ids, merge. simpl. apply merge_rows_ids. Qed.

Lemma merge_ids_mono (u : wire) (s : db) (x : jsval) :
  x ∈ ids s → x ∈ ids (merge u s).
Proof.
  intros Hx. rewrite merge_ids. case_bool_decide; [done|].
  apply elem_of_app. by left.
Qed.

Lemma merge_id_present (u : wire) (s : db) : w_id u ∈ ids (merge u s).
Proof.
  rewrite merge_ids. case_bool_decide; [done|].
  apply elem_of_app. right. by left.
Qed.

#[local] Hint Resolve merge_ids_mono merge_id_present : ledger.

Lemma merge_unique_ids (u : wire) (s : db) :
  unique_ids s → unique_ids (merge u s).
Proof.
  unfold unique_ids. intros Hnd. rewrite merge_ids.
  case_bool_decide as Hin; [done|].
  apply NoDup_app. split; [done|]. split.
  - intros x Hx Hx'. apply list_elem_of_singleton in Hx'. by subst.
  - apply NoDup_singleton.
Qed.

Lemma merge_rows_pending_at (u : wire) (next : Z) (rows : list tx) (k : nat) (t : tx) :
  rows !! k = Some t → syncStatus t = Pending →
  merge_rows u next rows !! k = Some t.
Proof.
  revert k. induction rows as [|r rows IH]; intros k Hk Hp; [done|].
  simpl. destruct k as [|k]; simpl in Hk.
  - injection Hk as ->. case_bool_decide; [by rewrite Hp | done].
  - case_bool_decide; simpl; [done | by apply IH].
Qed.

Lemma merge_rows_pending (u : wire) (next : Z) (rows : list tx) :
  List.filter is_pending (merge_rows u next rows) = List.filter is_pending rows.
Proof.
  induction rows as [|r rows IH]; [done|]. cbn [merge_rows].
  case_id r u as Hid.
  - destruct (syncStatus r) eqn:Hs; [done|].
    cbn [List.filter].
    replace (is_pending r) with false by (unfold is_pending; by rewrite Hs).
    reflexivity.
  - cbn [List.filter]. by rewrite IH.
Qed.

Lemma merge_all_pending_at (us : list wire) (s : db) (k : nat) (t : tx) :
  transactions s !! k = Some t → syncStatus t = Pending →
  transactions (merge_all us s) !! k = Some t.
Proof.
  revert s. induction us as [|u us IH]; intros s Hk Hp; [done|].
  simpl. apply IH; [|done]. simpl. by apply merge_rows_pending_at.
Qed.

Lemma merge_all_pending (us : list wire) (s : db) :
  getPendingTransactions (merge_all us s) = getPendingTransactions s.
Proof.
  revert s. induction us as [|u us IH]; intros s; [done|].
  simpl. rewrite IH. unfold getPendingTransactions. simpl.
  apply merge_rows_pending.
Qed.

Lemma merge_all_unique_ids (us : list wire) (s : db) :
  unique_ids s → unique_ids (merge_all us s).
Proof.
  revert s. induction us as [|u us IH]; intros s Hs; [done|].
  simpl. by apply IH, merge_unique_ids.
Qed.

(** ** Pull as a sequence of merges *)

Lemma fold_merge_step_fst (us : list wire) (s : db) (n : nat) :
  fst (fold_left (merge_step upsertRemoteTransaction) us (s, n)) = merge_all us s.
Proof.
  revert s n. induction us as [|u us IH]; intros s n; [done|].
  simpl. unfold merge_step at 2. simpl.
  rewrite upsertRemoteTransaction_merge. apply IH.
Qed.

Lemma fold_merge_step_present (us : list wire) (s : db) (n : nat) :
  (∀ u, u ∈ us → w_id u ∈ ids s) →
  snd (fold_left (merge_step upsertRemoteTransaction) us (s, n)) = n.
Proof.
  revert s n. induction us as [|u us IH]; intros s n Hin; [done|].
  simpl. unfold merge_step at 2. simpl.
  rewrite upsertRemoteTransaction_merge.
  rewrite bool_decide_eq_true_2 by (apply Hin; by left). simpl.
  apply IH. intros v Hv. apply merge_ids_mono, Hin. by right.
Qed.

(** The store and the count of a pull that got a response. *)
Lemma pull_loop_merge_all (now : clock) (L : list remote_tx) (s : db) :
  fst (pull_loop upsertRemoteTransaction now 0 L s 0)
  = merge_all (upsert_calls now 0 L) s.
Proof. rewrite pull_loop_fold. apply fold_merge_step_fst. Qed.

Lemma pull_transactions (e : env) (now : clock) (s : db) :
  fst (pullRemoteTransactions e now s) = s
  ∨ ∃ L, get_transactions e = GetJson L
         ∧ sync_disabled e = false
         ∧ fst (pullRemoteTransactions e now s)
           = setLastSyncTimestamp (now (length (default [] L)))
               (merge_all (upsert_calls now 0 (default [] L)) s)
         ∧ snd (pullRemoteTransactions e now s)
           = snd (pull_loop upsertRemoteTransaction now 0 (default [] L) s 0).
Proof.
  unfold pullRemoteTransactions.
  destruct (sync_disabled e); [by left|].
  destruct (get_transactions e) as [| |L]; [by left | by left |].
  right. exists L. split; [done|]. split; [done|].
  rewrite <- pull_loop_merge_all.
  by destruct (pull_loop upsertRemoteTransaction now 0 (default [] L) s 0).
Qed.

Lemma with_transactions_same (s : db) : with_transactions (transactions s) s = s.
Proof. by destruct s. Qed.

Lemma setLastSyncTimestamp_transactions (ts : string) (s : db) :
  transactions (setLastSyncTimestamp ts s) = transactions s.
Proof. reflexivity. Qed.

Lemma pull_pending_at (e : env) (now : clock) (s : db) (k : nat) (t : tx) :
  transactions s !! k = Some t → syncStatus t = Pending →
  transactions (fst (pullRemoteTransactions e now s)) !! k = Some t.
Proof.
  intros Hk Hp. destruct (pull_transactions e now s) as [-> | (L & _ & _ & -> & _)].
  - exact Hk.
  - rewrite setLastSyncTimestamp_transactions. by apply merge_all_pending_at.
Qed.

Lemma pull_unique_ids (e : env) (now : clock) (s : db) :
  unique_ids s → unique_ids (fst (pullRemoteTransactions e now s)).
Proof.
  intros Hu. destruct (pull_transactions e now s) as [-> | (L & _ & _ & -> & _)].
  - exact Hu.
  - by apply (merge_all_unique_ids _ s).
Qed.

Lemma unique_ids_same_row (rows : list tx) (a b : tx) :
  NoDup (map id rows) → a ∈ rows → b ∈ rows → id a = id b → a = b.
Proof.
  induction rows as [|r rows IH]; intros Hnd Ha Hb Hid.
  - by apply elem_of_nil in Ha.
  - simpl in Hnd. apply NoDup_cons in Hnd as [Hr Hnd].
    apply elem_of_cons in Ha as [-> | Ha]; apply elem_of_cons in Hb as [-> | Hb].
    + done.
    + destruct Hr. rewrite Hid. apply list_elem_of_fmap. by exists b.
    + destruct Hr. rewrite <- Hid. apply list_elem_of_fmap. by exists a.
    + by apply IH.
Qed.

Lemma upsert_rows_pending_discards (u : wire) (rows : list tx) (t : tx) :
  NoDup (map id rows) → t ∈ rows → syncStatus t = Pending → w_id u = id t →
  upsert_rows u rows = Some rows.
Proof.
  induction rows as [|r rows IH]; intros Hnd Ht Hp Hid.
  - by apply elem_of_nil in Ht.
  - cbn [upsert_rows].
    case_id r u as Hr.
    + assert (r = t) as ->.
      { apply (unique_ids_same_row (r :: rows)); [done | by left | done | congruence]. }
      by rewrite Hp.
    + apply elem_of_cons in Ht as [-> | Ht]; [by destruct Hr|].
      simpl in Hnd. apply NoDup_cons in Hnd as [_ Hnd].
      by rewrite IH.
Qed.

(** [C2] A pending local record comes through a pull untouched, whatever
    the pull delivers: it is still the record at its place, with its fields,
    its amount and [syncStatus = 'pending'].  Where ids are unique, the
    merge of a remote record with its id is discarded, it returns the store
    as it was and reports no insertion, and after the pull the pending
    record is still the only one with that id. *)
Theorem pull_keeps_pending_record (e : env) (now : clock) (s : db) (k : nat)
    (t : tx) :
  transactions s !! k = Some t →
  syncStatus t = Pending →
  transactions (fst (pullRemoteTransactions e now s)) !! k = Some t
  ∧ (unique_ids s →
     (∀ u, w_id u = id t → upsertRemoteTransaction u s = (s, false))
     ∧ (∀ t', t' ∈ transactions (fst (pullRemoteTransactions e now s)) →
              id t' = id t → t' = t)).
Proof.
  intros Hk Hp. pose proof (pull_pending_at e now s k t Hk Hp) as Hk'.
  split; [exact Hk'|]. intros Hu. split.
  - intros u Hid. unfold upsertRemoteTransaction.
    rewrite (upsert_rows_pending_discards u (transactions s) t); try done.
    + by rewrite with_transactions_same.
    + by apply list_elem_of_lookup_2 in Hk.
  - intros t' Ht' Hid.
    apply (unique_ids_same_row (transactions (fst (pullRemoteTransactions e now s))));
      [by apply pull_unique_ids | done | by apply list_elem_of_lookup_2 in Hk' | done].
Qed.

(** Scenario E: after the pull, record "a" still reads amount 100 and is
    still pending. *)
Lemma pull_keeps_pending_record_witness :
  transactions (fst (pullRemoteTransactions (env_up remote_a_200) clock_a store_pending_a))
    !! 0%nat = Some row_pending_a.
Proof.
  apply (pull_keeps_pending_record (env_up remote_a_200) clock_a store_pending_a
           0%nat row_pending_a); reflexivity.
Defined.

(** ** Unique ids *)

Lemma addTransaction_ids (transaction : new_tx) (now : string) (s : db) :
  ids (fst (addTransaction transaction now s)) = (ids s ++ [n_id transaction])%list.
Proof. unfold ids. simpl. by rewrite map_app. Qed.

Lemma push_ids (e : env) (s : db) : ids (fst (pushPendingTransactions e s)) = ids s.
Proof.
  unfold pushPendingTransactions.
  destruct (sync_disabled e); [done|].
  destruct (Nat.eqb _ _); [done|].
  destruct (post_sync e _) as [|[|]]; [done| |done].
  unfold ids, markAsSynced. simpl. rewrite map_map. apply map_ext.
  intros t. by destruct (bool_decide _).
Qed.

Lemma step_unique_ids (o : op) (s : db) :
  unique_ids s →
  match o with
  | OpAdd transaction _ => n_id transaction ∉ ids s
  | _ => True
  end →
  unique_ids (step o s).
Proof.
  intros Hu Hfresh. destruct o as [transaction now | e now | e]; cbn [step].
  - unfold unique_ids. rewrite addTransaction_ids.
    apply NoDup_app. split; [done|]. split.
    + intros x Hx Hx'. apply list_elem_of_singleton in Hx'. by subst.
    + apply NoDup_singleton.
  - by apply pull_unique_ids.
  - unfold unique_ids. by rewrite push_ids.
Qed.

(** [C5], as the claim words it, fails when [addTransaction] is handed an id
    a second time: the table then holds two records with that id. *)
Lemma add_same_id_twice_duplicates : ¬ unique_ids (run ops_same_id_twice empty_db).
Proof.
  unfold unique_ids. intros H. vm_compute in H.
  apply NoDup_cons in H as [Hn _]. apply Hn. by left.
Qed.

(** [C5], as the code has it.  From a store in which each id identifies at
    most one record, after every sequence of adds, pulls and pushes in which
    each add brings an id that no local record has yet, each id still
    identifies at most one local record; the pulls are not restricted, the
    same remote record may be delivered any number of times. *)
Theorem unique_ids_invariant (ops : list op) (s : db) :
  unique_ids s →
  fresh_adds ops s = true →
  unique_ids (run ops s).
Proof.
  revert s. induction ops as [|o ops IH]; intros s Hu Hfresh; [exact Hu|].
  simpl in Hfresh. apply andb_true_iff in Hfresh as [Ho Hrest].
  simpl. apply IH; [|exact Hrest].
  apply step_unique_ids; [exact Hu|].
  destruct o; [|done|done]. by apply bool_decide_eq_true in Ho.
Qed.

Lemma unique_ids_invariant_witness : unique_ids (run ops_add_pull_pull_add empty_db).
Proof.
  apply (unique_ids_invariant ops_add_pull_pull_add empty_db);
    [apply NoDup_nil_2 | vm_compute; reflexivity].
Defined.

(** ** The merges of a pull, run again *)

Lemma db_eq (s1 s2 : db) :
  transactions s1 = transactions s2 → nextLocalId s1 = nextLocalId s2 →
  settings s1 = settings s2 → s1 = s2.
Proof. destruct s1, s2. simpl. by intros -> -> ->. Qed.

Lemma merge_rows_next (u : wire) (m m' : Z) (rows : list tx) :
  w_id u ∈ map id rows → merge_rows u m rows = merge_rows u m' rows.
Proof.
  induction rows as [|r rows IH]; intros Hin.
  - by apply elem_of_nil in Hin.
  - cbn [merge_rows]. case_id r u as Hr; [done|].
    simpl in Hin. apply elem_of_cons in Hin as [Hin | Hin]; [by destruct Hr|].
    by rewrite IH.
Qed.

(** A second merge for the same id overrides the first. *)
Lemma merge_rows_absorb (u v : wire) (n n' : Z) (rows : list tx) :
  w_id u = w_id v →
  merge_rows u n' (merge_rows v n rows) = merge_rows u n rows.
Proof.
  intros Huv. induction rows as [|r rows IH]; cbn [merge_rows].
  - cbn [row_of_wire id]. by rewrite bool_decide_eq_true_2 by done.
  - case_id r v as Hr.
    + cbn [merge_rows]. rewrite (bool_decide_eq_true_2 (id r = w_id u)) by congruence.
      destruct (syncStatus r) eqn:Hs.
      * rewrite (bool_decide_eq_true_2 (id r = w_id u)) by congruence.
        by rewrite Hs.
      * cbn [row_of_wire id]. by rewrite bool_decide_eq_true_2 by done.
    + cbn [merge_rows].
      rewrite (bool_decide_eq_false_2 (id r = w_id u)) by congruence.
      by rewrite IH.
Qed.

(** Merges for different ids commute once one of the ids is present. *)
Lemma merge_rows_comm (u v : wire) (n m m' : Z) (rows : list tx) :
  w_id v ∈ map id rows → w_id u ≠ w_id v →
  merge_rows u n (merge_rows v m rows) = merge_rows v m' (merge_rows u n rows).
Proof.
  intros Hin Huv. induction rows as [|r rows IH].
  - by apply elem_of_nil in Hin.
  - cbn [merge_rows].
    case_id r v as Hv;
      case_id r u as Hu.
    + congruence.
    + cbn [merge_rows]. rewrite (bool_decide_eq_true_2 (id r = w_id v)) by done.
      destruct (syncStatus r) eqn:Hs.
      * by rewrite (bool_decide_eq_false_2 (id r = w_id u)) by done.
      * cbn [row_of_wire id].
        by rewrite (bool_decide_eq_false_2 (w_id v = w_id u)) by congruence.
    + cbn [merge_rows]. rewrite (bool_decide_eq_true_2 (id r = w_id u)) by done.
      simpl in Hin. apply elem_of_cons in Hin as [Hin | Hin]; [by destruct Hv|].
      rewrite (merge_rows_next v m m' rows Hin).
      destruct (syncStatus r) eqn:Hs.
      * by rewrite (bool_decide_eq_false_2 (id r = w_id v)) by done.
      * cbn [row_of_wire id].
        by rewrite (bool_decide_eq_false_2 (w_id u = w_id v)) by congruence.
    + cbn [merge_rows].
      rewrite (bool_decide_eq_false_2 (id r = w_id u)) by done.
      rewrite (bool_decide_eq_false_2 (id r = w_id v)) by done.
      simpl in Hin. apply elem_of_cons in Hin as [Hin | Hin]; [by destruct Hv|].
      by rewrite IH.
Qed.

Lemma merge_absorb (u v : wire) (s : db) :
  w_id u = w_id v → merge u (merge v s) = merge u s.
Proof.
  intros Huv. apply db_eq; cbn [merge transactions nextLocalId settings].
  - by apply merge_rows_absorb.
  - rewrite (bool_decide_eq_true_2 (w_id u ∈ ids (merge v s)))
      by (rewrite Huv; apply merge_id_present).
    by rewrite Huv.
  - reflexivity.
Qed.

Lemma merge_comm (u v : wire) (s : db) :
  w_id v ∈ ids s → w_id u ≠ w_id v → merge u (merge v s) = merge v (merge u s).
Proof.
  intros Hin Huv. apply db_eq; cbn [merge transactions nextLocalId settings].
  - rewrite (bool_decide_eq_true_2 (w_id v ∈ ids s)) by done.
    by apply merge_rows_comm.
  - rewrite (bool_decide_eq_true_2 (w_id v ∈ ids (merge u s)))
      by (by apply merge_ids_mono).
    rewrite (bool_decide_eq_true_2 (w_id v ∈ ids s)) by done.
    rewrite merge_ids. by rewrite (bool_decide_eq_true_2 (w_id v ∈ ids s)) by done.
  - reflexivity.
Qed.

Lemma merge_all_snoc (us : list wire) (u : wire) (s : db) :
  merge_all (us ++ [u]) s = merge u (merge_all us s).
Proof. unfold merge_all. by rewrite fold_left_app. Qed.

Lemma merge_all_ids_mono (us : list wire) (s : db) (x : jsval) :
  x ∈ ids s → x ∈ ids (merge_all us s).
Proof.
  revert s. induction us as [|u us IH]; intros s Hx; [done|].
  simpl. eauto with ledger.
Qed.

#[local] Hint Resolve merge_all_ids_mono : ledger.

Lemma merge_all_ids_present (us : list wire) (s : db) (u : wire) :
  u ∈ us → w_id u ∈ ids (merge_all us s).
Proof.
  revert s. induction us as [|v us IH]; intros s Hu.
  - by apply elem_of_nil in Hu.
  - simpl. apply elem_of_cons in Hu as [-> | Hu]; eauto with ledger.
Qed.

(** A merge for an id that the later merges do not touch can be done last. *)
Lemma merge_all_defer (us : list wire) (u : wire) (s : db) :
  (∀ v, v ∈ us → w_id v ∈ ids s) →
  (∀ v, v ∈ us → w_id v ≠ w_id u) →
  merge_all us (merge u s) = merge u (merge_all us s).
Proof.
  revert s. induction us as [|v us IH]; intros s Hin Hne; [done|].
  simpl. rewrite <- (merge_comm u v s).
  - apply IH.
    + intros w Hw. apply merge_ids_mono, Hin. by right.
    + intros w Hw. apply Hne. by right.
  - apply Hin. by left.
  - intros Huv. apply (Hne v); [by left | done].
Qed.

(** A merge for an id that a later merge overrides leaves no trace. *)
Lemma merge_all_override (us : list wire) (u : wire) (s : db) :
  (∀ v, v ∈ us → w_id v ∈ ids s) →
  (∃ v, v ∈ us ∧ w_id v = w_id u) →
  merge_all us (merge u s) = merge_all us s.
Proof.
  revert s. induction us as [|v us IH]; intros s Hin (w & Hw & Hwu).
  - by apply elem_of_nil in Hw.
  - simpl. destruct (decide (w_id v = w_id u)) as [Hvu|Hvu].
    + by rewrite merge_absorb.
    + apply elem_of_cons in Hw as [-> | Hw]; [done|].
      rewrite <- (merge_comm u v s); [|apply Hin; by left|congruence].
      apply IH.
      * intros x Hx. apply merge_ids_mono, Hin. by right.
      * by exists w.
Qed.

(** Running the merges of a pull a second time changes nothing. *)
Lemma merge_all_idempotent (us : list wire) (s : db) :
  merge_all us (merge_all us s) = merge_all us s.
Proof.
  revert s. induction us as [|u us IH] using rev_ind; intros s; [done|].
  rewrite !merge_all_snoc.
  set (y := merge_all us s).
  assert (Hpresent : ∀ v, v ∈ us → w_id v ∈ ids y).
  { intros v Hv. by apply merge_all_ids_present. }
  destruct (decide (Exists (λ v, w_id v = w_id u) us)) as [Hex|Hnex].
  - apply Exists_exists in Hex as (v & Hv & Hvu).
    rewrite merge_all_override; [|done|by exists v].
    unfold y. by rewrite IH.
  - rewrite merge_all_defer; [| done |].
    + unfold y. rewrite IH. by apply merge_absorb.
    + intros v Hv Hvu. apply Hnex. apply Exists_exists. by exists v.
Qed.

Lemma merge_all_setSetting (us : list wire) (key : string) (value : jsval) (s : db) :
  merge_all us (setSetting key value s) = setSetting key value (merge_all us s).
Proof.
  revert s. induction us as [|u us IH]; intros s; [done|].
  simpl. by rewrite <- IH.
Qed.

(** ** The clock in the merges *)

Lemma normalize_stamped (ts ts' : string) (t : remote_tx) :
  truthy (r_createdAt t) = true → normalize ts t = normalize ts' t.
Proof. intros H. unfold normalize, js_or. by rewrite H. Qed.

Lemma upsert_calls_stamped (now now' : clock) (L : list remote_tx) (i i' : nat) :
  stamped L = true → upsert_calls now i L = upsert_calls now' i' L.
Proof.
  revert i i'. induction L as [|t L IH]; intros i i' Hs; [done|].
  simpl in Hs. apply andb_true_iff in Hs as [Ht Hs]. simpl.
  destruct (truthy (r_id t)); simpl in Ht.
  - by rewrite (normalize_stamped (now i) (now' i') t Ht), (IH (S i) (S i') Hs).
  - by apply IH.
Qed.

Lemma upsert_calls_ids (now now' : clock) (L : list remote_tx) (i i' : nat) :
  map w_id (upsert_calls now i L) = map w_id (upsert_calls now' i' L).
Proof.
  revert i i'. induction L as [|t L IH]; intros i i'; [done|].
  simpl. destruct (truthy (r_id t)); simpl; [f_equal|]; apply IH.
Qed.

(** ** The combined sync, run again *)

Lemma pull_json (e : env) (now : clock) (s : db) (L : option (list remote_tx)) :
  sync_disabled e = false → get_transactions e = GetJson L →
  pullRemoteTransactions e now s
  = (setLastSyncTimestamp (now (length (default [] L)))
       (merge_all (upsert_calls now 0 (default [] L)) s),
     snd (fold_left (merge_step upsertRemoteTransaction)
            (upsert_calls now 0 (default [] L)) (s, 0%nat))).
Proof.
  intros Hen Hget. unfold pullRemoteTransactions. rewrite Hen, Hget.
  rewrite pull_loop_fold. rewrite <- fold_merge_step_fst with (n := 0%nat).
  by destruct (fold_left _ _ _).
Qed.

(** A pull that got a response leaves the time of its end as the
    watermark; nothing reads it back. *)
Lemma pull_sets_watermark (e : env) (now : clock) (s : db)
    (L : option (list remote_tx)) :
  sync_disabled e = false → get_transactions e = GetJson L →
  getLastSyncTimestamp (fst (pullRemoteTransactions e now s))
  = JStr (now (length (default [] L))).
Proof.
  intros Hen Hget. rewrite (pull_json e now s L Hen Hget).
  unfold getLastSyncTimestamp, getSetting, setLastSyncTimestamp, setSetting.
  cbn [fst settings]. by rewrite lookup_insert_eq.
Qed.

(** Scenario D: the remote ledger holds "a" and "b", the local store is
    empty; the pull reports two records and both are in the table. *)
Example scenario_pull_two_records :
  snd (pullRemoteTransactions (env_up remote_a_b) clock_a empty_db) = 2%nat
  ∧ ids (fst (pullRemoteTransactions (env_up remote_a_b) clock_a empty_db))
    = [JStr "a"; JStr "b"].
Proof. split; vm_compute; reflexivity. Qed.

Lemma pull_keeps_pending (e : env) (now : clock) (s : db) :
  getPendingTransactions (fst (pullRemoteTransactions e now s))
  = getPendingTransactions s.
Proof.
  destruct (pull_transactions e now s) as [-> | (L & _ & _ & -> & _)]; [done|].
  apply merge_all_pending.
Qed.

(** Once a push has run, a push on any store with the pending records it
    left sends nothing and changes nothing. *)
Lemma push_again_quiet (e : env) (s s' : db) :
  getPendingTransactions s' = getPendingTransactions (fst (pushPendingTransactions e s)) →
  fst (pushPendingTransactions e s') = s'
  ∧ synced (snd (pushPendingTransactions e s')) = 0%nat.
Proof.
  unfold pushPendingTransactions.
  destruct (sync_disabled e); [done|].
  destruct (Nat.eqb (length (getPendingTransactions s)) 0) eqn:Hlen.
  - cbn [fst]. intros ->. by rewrite Hlen.
  - destruct (post_sync e (push_body (getPendingTransactions s))) as [|[|]] eqn:Hpost;
      cbn [fst].
    + intros ->. by rewrite Hlen, Hpost.
    + unfold getPendingTransactions at 2. rewrite markAsSynced_pending.
      rewrite getPending_all_synced. by intros ->.
    + intros ->. by rewrite Hlen, Hpost.
Qed.

Lemma pull_again (e : env) (now1 now2 : clock) (s : db) :
  snd (pullRemoteTransactions e now2 (fst (pullRemoteTransactions e now1 s))) = 0%nat
  ∧ (remote_stamped e = true →
     transactions (fst (pullRemoteTransactions e now2
                          (fst (pullRemoteTransactions e now1 s))))
     = transactions (fst (pullRemoteTransactions e now1 s))
     ∧ nextLocalId (fst (pullRemoteTransactions e now2
                           (fst (pullRemoteTransactions e now1 s))))
       = nextLocalId (fst (pullRemoteTransactions e now1 s))).
Proof.
  destruct (sync_disabled e) eqn:Hen.
  { unfold pullRemoteTransactions. by rewrite Hen. }
  destruct (get_transactions e) as [| |L] eqn:Hget.
  { unfold pullRemoteTransactions. by rewrite Hen, Hget. }
  { unfold pullRemoteTransactions. by rewrite Hen, Hget. }
  rewrite (pull_json e now1 s L Hen Hget). cbn [fst].
  rewrite (pull_json e now2 _ L Hen Hget). cbn [fst snd].
  set (L' := default [] L).
  split.
  - apply fold_merge_step_present. intros u Hu.
    assert (Hid : w_id u ∈ map w_id (upsert_calls now1 0 L')).
    { rewrite (upsert_calls_ids now1 now2 L' 0 0). apply list_elem_of_fmap.
      by exists u. }
    apply list_elem_of_fmap in Hid as (v & -> & Hv).
    change (ids (setLastSyncTimestamp (now1 (length L'))
                   (merge_all (upsert_calls now1 0 L') s)))
      with (ids (merge_all (upsert_calls now1 0 L') s)).
    by apply merge_all_ids_present.
  - intros Hst. unfold remote_stamped in Hst. rewrite Hget in Hst.
    assert (Hs : stamped L' = true) by (by destruct L).
    rewrite (upsert_calls_stamped now2 now1 L' 0 0 Hs).
    unfold setLastSyncTimestamp. rewrite !merge_all_setSetting.
    by rewrite merge_all_idempotent.
Qed.




(** * More of db.js *)

(** ** Deleting *)

Lemma filter_sublist {A} (f : A → bool) (l : list A) : List.filter f l `sublist_of` l.
Proof.
  induction l as [|x l IH]; simpl; [constructor|].
  destruct (f x); by constructor.
Qed.

Lemma filter_all {A} (f : A → bool) (l : list A) :
  (∀ x, x ∈ l → f x = true) → List.filter f l = l.
Proof.
  induction l as [|x l IH]; intros H; simpl; [done|].
  rewrite (H x) by (by left). f_equal. apply IH. intros y Hy. apply H. by right.
Qed.

Lemma filter_filter_same {A} (f : A → bool) (l : list A) :
  List.filter f (List.filter f l) = List.filter f l.
Proof.
  apply filter_all. intros x Hx. apply list_elem_of_In, filter_In in Hx. apply Hx.
Qed.

(** [X1] [deleteTransaction] removes the rows with the given key and nothing
    else, keeps the order of the others, keeps the key generator and the
    settings; on a key that no row has it changes nothing, and deleting twice
    is deleting once. *)
Theorem deleteTransaction_removes_only_key (key : Z) (s : db) :
  (∀ t, t ∈ transactions (deleteTransaction key s)
        ↔ t ∈ transactions s ∧ localId t ≠ key)
  ∧ transactions (deleteTransaction key s) `sublist_of` transactions s
  ∧ nextLocalId (deleteTransaction key s) = nextLocalId s
  ∧ settings (deleteTransaction key s) = settings s
  ∧ (key ∉ keys s → deleteTransaction key s = s)
  ∧ deleteTransaction key (deleteTransaction key s) = deleteTransaction key s.
Proof.
  split; [|split; [|split; [|split; [|split]]]].
  - intros t. unfold deleteTransaction. cbn [with_transactions transactions].
    rewrite list_elem_of_In, filter_In, <- list_elem_of_In.
    rewrite negb_true_iff, bool_decide_eq_false. reflexivity.
  - apply filter_sublist.
  - reflexivity.
  - reflexivity.
  - intros Hk. unfold deleteTransaction. rewrite filter_all.
    + apply with_transactions_same.
    + intros t Ht. apply negb_true_iff, bool_decide_eq_false. intros <-.
      apply Hk. unfold keys. apply list_elem_of_fmap. by exists t.
  - unfold deleteTransaction. cbn [with_transactions transactions nextLocalId settings].
    by rewrite filter_filter_same.
Qed.

(** ** Keys *)

Lemma keys_map_localId (f : tx → tx) (rows : list tx) :
  (∀ t, localId (f t) = localId t) → map localId (map f rows) = map localId rows.
Proof. intros H. rewrite map_map. apply map_ext. exact H. Qed.

Lemma markAsSynced_keys (localIds : list Z) (s : db) :
  keys (markAsSynced localIds s) = keys s.
Proof.
  unfold keys, markAsSynced. cbn [with_transactions transactions].
  apply keys_map_localId. intros t. by destruct (bool_decide _).
Qed.

Lemma push_keys (e : env) (s : db) : keys (fst (pushPendingTransactions e s)) = keys s.
Proof.
  unfold pushPendingTransactions.
  destruct (sync_disabled e); [done|].
  destruct (Nat.eqb _ _); [done|].
  destruct (post_sync e _) as [|[|]]; [done| |done].
  apply markAsSynced_keys.
Qed.

Lemma push_nextLocalId (e : env) (s : db) :
  nextLocalId (fst (pushPendingTransactions e s)) = nextLocalId s.
Proof.
  unfold pushPendingTransactions.
  destruct (sync_disabled e); [done|].
  destruct (Nat.eqb _ _); [done|].
  by destruct (post_sync e _) as [|[|]].
Qed.

Lemma StronglySorted_map_filter (f : tx → bool) (rows : list tx) :
  StronglySorted Z.lt (map localId rows) →
  StronglySorted Z.lt (map localId (List.filter f rows)).
Proof.
  induction rows as [|t rows IH]; simpl; [done|].
  intros Hs. apply StronglySorted_inv in Hs as [Hs Hall].
  destruct (f t); [|by apply IH]. simpl. constructor; [by apply IH|].
  apply Forall_forall. intros k Hk. rewrite Forall_forall in Hall. apply Hall.
  apply list_elem_of_fmap in Hk as (t' & -> & Ht').
  apply list_elem_of_fmap. exists t'. split; [done|].
  apply list_elem_of_In, filter_In in Ht'. apply list_elem_of_In, Ht'.
Qed.

Lemma Forall_map_filter (P : Z → Prop) (f : tx → bool) (rows : list tx) :
  Forall P (map localId rows) → Forall P (map localId (List.filter f rows)).
Proof.
  rewrite !Forall_forall. intros H k Hk. apply H.
  apply list_elem_of_fmap in Hk as (t' & -> & Ht').
  apply list_elem_of_fmap. exists t'. split; [done|].
  apply list_elem_of_In, filter_In in Ht'. apply list_elem_of_In, Ht'.
Qed.

Lemma addTransaction_keys (transaction : new_tx) (now : string) (s : db) :
  keys (fst (addTransaction transaction now s)) = (keys s ++ [nextLocalId s])%list.
Proof. unfold keys. simpl. by rewrite map_app. Qed.

Lemma store_step_keys_ok (o : store_op) (s : db) :
  keys_ok s →
  keys_ok (store_step o s) ∧ nextLocalId s ≤ nextLocalId (store_step o s).
Proof.
  intros [Hsorted Hbelow].
  destruct o as [transaction now | key | localIds | key value | | e]; cbn [store_step].
  - split; [|simpl; lia]. split; rewrite addTransaction_keys.
    + apply StronglySorted_app_2; [|done | repeat constructor].
      intros k1 k2 Hk1 Hk2. apply list_elem_of_singleton in Hk2 as ->.
      rewrite Forall_forall in Hbelow. by apply Hbelow.
    + apply Forall_app. split.
      * eapply Forall_impl; [exact Hbelow|]. simpl. intros; lia.
      * repeat constructor. simpl. lia.
  - split; [|reflexivity]. split.
    + by apply StronglySorted_map_filter.
    + by apply Forall_map_filter.
  - split; [|reflexivity]. unfold keys_ok. by rewrite markAsSynced_keys.
  - by split; [split|].
  - split; [|reflexivity]. split; constructor.
  - rewrite push_nextLocalId. split; [|reflexivity].
    unfold keys_ok. by rewrite push_keys, push_nextLocalId.
Qed.

Lemma store_run_keys_ok (ops : list store_op) (s : db) :
  keys_ok s →
  keys_ok (store_run ops s) ∧ nextLocalId s ≤ nextLocalId (store_run ops s).
Proof.
  revert s. induction ops as [|o ops IH]; intros s Hok; [by split|].
  destruct (store_step_keys_ok o s Hok) as [Hok' Hle].
  destruct (IH _ Hok') as [Hok'' Hle'].
  change (store_run (o :: ops) s) with (store_run ops (store_step o s)).
  split; [exact Hok''|]. lia.
Qed.

(** [X2] Whatever is added, deleted, marked, cleared or pushed, the table stays in
    key order without a repeated key, and the key [addTransaction] returns
    next is carried by no row and is not below the generator's count at the
    start: a key that was once given out is never given out again, not even
    after its row was deleted or the table cleared. *)
Theorem keys_never_reused (ops : list store_op) (s : db) :
  keys_ok s →
  keys_ok (store_run ops s)
  ∧ NoDup (keys (store_run ops s))
  ∧ (∀ transaction now,
       let key := snd (addTransaction transaction now (store_run ops s)) in
       nextLocalId s ≤ key ∧ key ∉ keys (store_run ops s)).
Proof.
  intros Hok. destruct (store_run_keys_ok ops s Hok) as [[Hsorted Hbelow] Hle].
  split; [by split|]. split.
  - clear -Hsorted. induction Hsorted as [|k l _ IH Hall]; [constructor|].
    constructor; [|exact IH]. intros Hin. rewrite Forall_forall in Hall.
    specialize (Hall k Hin). lia.
  - intros transaction now key. subst key. cbn [addTransaction snd].
    split; [exact Hle|]. intros Hin. rewrite Forall_forall in Hbelow.
    specialize (Hbelow _ Hin). lia.
Qed.

Lemma keys_ok_empty : keys_ok empty_db.
Proof. split; constructor. Qed.

Lemma keys_never_reused_witness :
  keys_ok (store_run ops_add_delete_clear empty_db)
  ∧ NoDup (keys (store_run ops_add_delete_clear empty_db)).
Proof.
  destruct (keys_never_reused ops_add_delete_clear empty_db keys_ok_empty)
    as (Hok & Hnd & _).
  split; [exact Hok | exact Hnd].
Defined.

(** ** Adding *)

Lemma filter_snoc (P : tx → bool) (rows : list tx) (t : tx) :
  List.filter P (rows ++ [t]) = (List.filter P rows ++ if P t then [t] else [])%list.
Proof.
  induction rows as [|r rows IH]; simpl; [by destruct (P t)|].
  rewrite IH. by destruct (P r).
Qed.

(** [X3] [addTransaction] appends one pending row under the key it returns, so
    the record joins the end of the pending list, and its amount is added to
    the income total when its kind is 'ingreso' and to the expense total
    otherwise; the other total stays. *)
Theorem addTransaction_effect (transaction : new_tx) (now : string) (s : db) :
  let s' := fst (addTransaction transaction now s) in
  let row := new_row transaction now s in
  transactions s' = (transactions s ++ [row])%list
  ∧ localId row = snd (addTransaction transaction now s)
  ∧ getPendingTransactions s' = (getPendingTransactions s ++ [row])%list
  ∧ (n_tipo transaction = JStr "ingreso" →
     ingresos (getTotalBalance s')
     = js_add (ingresos (getTotalBalance s)) (n_monto transaction)
     ∧ gastos (getTotalBalance s') = gastos (getTotalBalance s))
  ∧ (n_tipo transaction ≠ JStr "ingreso" →
     ingresos (getTotalBalance s') = ingresos (getTotalBalance s)
     ∧ gastos (getTotalBalance s')
       = js_add (gastos (getTotalBalance s)) (n_monto transaction)).
Proof.
  intros s' row.
  assert (Hrows : transactions s' = (transactions s ++ [row])%list) by reflexivity.
  split; [exact Hrows|]. split; [reflexivity|]. split; [|split].
  - unfold getPendingTransactions. rewrite Hrows. apply filter_snoc.
  - intros Hk. unfold getTotalBalance. cbn [ingresos gastos].
    rewrite Hrows, tally_snoc.
    replace (is_ingreso row) with true; [done|].
    symmetry. by apply is_ingreso_spec.
  - intros Hk. unfold getTotalBalance. cbn [ingresos gastos].
    rewrite Hrows, tally_snoc.
    replace (is_ingreso row) with false; [done|].
    symmetry. apply negb_true_iff. by apply not_ingreso_spec.
Qed.

(** [X4] In a store whose keys are in order, deleting the key that
    [addTransaction] has just returned gives back the table as it was; only
    the key generator has moved on. *)
Theorem add_then_delete_restores (transaction : new_tx) (now : string) (s : db) :
  keys_ok s →
  transactions (deleteTransaction (snd (addTransaction transaction now s))
                  (fst (addTransaction transaction now s)))
  = transactions s
  ∧ nextLocalId (deleteTransaction (snd (addTransaction transaction now s))
                   (fst (addTransaction transaction now s)))
    = nextLocalId s + 1.
Proof.
  intros [_ Hbelow]. split; [|reflexivity].
  unfold deleteTransaction. cbn [addTransaction fst snd with_transactions transactions].
  rewrite filter_snoc. cbn [localId].
  rewrite bool_decide_eq_true_2 by done. cbn [negb]. rewrite app_nil_r.
  apply filter_all. intros t Ht.
  apply negb_true_iff, bool_decide_eq_false. intros Hk.
  rewrite Forall_forall in Hbelow.
  assert (localId t < nextLocalId s); [|lia].
  apply Hbelow. unfold keys. apply list_elem_of_fmap. by exists t.
Qed.

Lemma add_then_delete_restores_witness :
  transactions (deleteTransaction
                  (snd (addTransaction (income_500 (Some today)) "t" store_two_pending))
                  (fst (addTransaction (income_500 (Some today)) "t" store_two_pending)))
  = transactions store_two_pending.
Proof.
  apply (add_then_delete_restores (income_500 (Some today)) "t" store_two_pending).
  split; [repeat constructor | repeat constructor].
Defined.

(** ** Settings *)

(** [X5] [getSetting] reads back what [setSetting] wrote under the same key, is
    not affected by a write under another key, and answers [null] for a key
    that was never written; a second write replaces the first; writing a
    setting leaves every transaction, and with them the pending list and the
    balance, as they were. *)
Theorem settings_read_back (key : string) (value : jsval) (s : db) :
  getSetting key (setSetting key value s) = value
  ∧ (∀ key', key' ≠ key →
             getSetting key' (setSetting key value s) = getSetting key' s)
  ∧ (settings s !! key = None → getSetting key s = JNull)
  ∧ (∀ value', setSetting key value' (setSetting key value s)
               = setSetting key value' s)
  ∧ transactions (setSetting key value s) = transactions s
  ∧ getPendingTransactions (setSetting key value s) = getPendingTransactions s
  ∧ getTotalBalance (setSetting key value s) = getTotalBalance s.
Proof.
  unfold getSetting, setSetting. cbn [settings transactions nextLocalId].
  split; [by rewrite lookup_insert_eq|]. split.
  { intros key' Hne. by rewrite lookup_insert_ne. }
  split; [by intros ->|]. split; [|done].
  intros value'. by rewrite insert_insert_eq.
Qed.

(** ** Marking as synced *)

Lemma markAsSynced_rows (localIds : list Z) (s : db) :
  transactions (markAsSynced localIds s)
  = map (λ t, if listed localIds t then set_syncStatus Synced t else t)
        (transactions s).
Proof. reflexivity. Qed.

Lemma db_same_rows (rows : list tx) (s : db) :
  rows = transactions s → with_transactions rows s = s.
Proof. intros ->. apply with_transactions_same. Qed.

(** [X6] [markAsSynced] touches the rows whose key is in the list and no other:
    what stays pending are the pending rows whose key is not listed; keys
    that no row has are passed over, so a list of such keys changes nothing;
    marking is idempotent, a list may be marked in two parts, and no row's
    key, id or amount is changed. *)
Theorem markAsSynced_only_listed (localIds : list Z) (s : db) :
  getPendingTransactions (markAsSynced localIds s)
  = List.filter (λ t, negb (listed localIds t)) (getPendingTransactions s)
  ∧ ((∀ k, k ∈ localIds → k ∉ keys s) → markAsSynced localIds s = s)
  ∧ markAsSynced localIds (markAsSynced localIds s) = markAsSynced localIds s
  ∧ (∀ more, markAsSynced (localIds ++ more) s
             = markAsSynced more (markAsSynced localIds s))
  ∧ keys (markAsSynced localIds s) = keys s
  ∧ ids (markAsSynced localIds s) = ids s
  ∧ map monto (transactions (markAsSynced localIds s)) = map monto (transactions s).
Proof.
  split; [|split; [|split; [|split; [|split; [|split]]]]].
  - unfold getPendingTransactions. rewrite markAsSynced_rows.
    induction (transactions s) as [|t rows IH]; [done|].
    cbn [map List.filter]. rewrite IH.
    destruct (listed localIds t) eqn:E.
    + replace (is_pending (set_syncStatus Synced t)) with false by done.
      destruct (is_pending t); cbn [List.filter]; [|done]. by rewrite E.
    + destruct (is_pending t); cbn [List.filter]; [|done]. by rewrite E.
  - intros Hnone. unfold markAsSynced. apply db_same_rows.
    rewrite <- (map_id (transactions s)) at 2. apply map_ext_in. intros t Ht.
    rewrite bool_decide_eq_false_2; [done|]. intros Hin.
    apply (Hnone _ Hin). unfold keys. apply list_elem_of_fmap. exists t.
    split; [done | by apply list_elem_of_In].
  - apply db_eq; [|done|done]. rewrite !markAsSynced_rows.
    rewrite map_map. apply map_ext. intros t.
    destruct (listed localIds t) eqn:E.
    + unfold listed in *. cbn [set_syncStatus localId]. by rewrite E.
    + by rewrite E.
  - intros more. apply db_eq; [|done|done]. rewrite !markAsSynced_rows.
    rewrite map_map. apply map_ext. intros t. unfold listed.
    destruct (bool_decide_reflect (localId t ∈ localIds)) as [H1|H1].
    + rewrite bool_decide_eq_true_2 by (apply elem_of_app; by left).
      cbn [set_syncStatus localId]. by destruct (bool_decide _).
    + destruct (bool_decide_reflect (localId t ∈ more)) as [H2|H2].
      * by rewrite bool_decide_eq_true_2 by (apply elem_of_app; by right).
      * rewrite bool_decide_eq_false_2; [done|].
        rewrite elem_of_app. by intros [|].
  - apply markAsSynced_keys.
  - unfold ids. rewrite markAsSynced_rows, map_map. apply map_ext.
    intros t. by destruct (listed localIds t).
  - rewrite markAsSynced_rows, map_map. apply map_ext.
    intros t. by destruct (listed localIds t).
Qed.

(** ** Syncing and money *)

Lemma tally_map_same (f : tx → tx) (rows : list tx) :
  (∀ t, tipo (f t) = tipo t ∧ monto (f t) = monto t) →
  tally (map f rows) = tally rows.
Proof.
  intros Hf. unfold tally. generalize (Fin 0, Fin 0).
  induction rows as [|t rows IH]; intros acc; [done|].
  cbn [map fold_left]. rewrite IH. f_equal.
  unfold is_ingreso. destruct (Hf t) as [-> ->]. reflexivity.
Qed.

Lemma filter_map_same {A} (p : A → bool) (f : A → A) (l : list A) :
  (∀ x, p (f x) = p x) → List.filter p (map f l) = map f (List.filter p l).
Proof.
  intros H. induction l as [|x l IH]; [done|].
  cbn [map List.filter]. rewrite H, IH. by destruct (p x).
Qed.

Lemma mark_step_fields (localIds : list Z) (t : tx) :
  let t' := if listed localIds t then set_syncStatus Synced t else t in
  tipo t' = tipo t ∧ monto t' = monto t ∧ fecha t' = fecha t.
Proof. simpl. by destruct (listed localIds t). Qed.

Lemma markAsSynced_totals (localIds : list Z) (tz : Z) (startDate endDate : datestr)
    (s : db) :
  getTotalBalance (markAsSynced localIds s) = getTotalBalance s
  ∧ getSummary tz startDate endDate (markAsSynced localIds s)
    = getSummary tz startDate endDate s.
Proof.
  split.
  - unfold getTotalBalance. rewrite markAsSynced_rows.
    rewrite tally_map_same; [done|].
    intros t. destruct (mark_step_fields localIds t) as (? & ? & _). by split.
  - unfold getSummary, getTransactionsByDateRange. rewrite markAsSynced_rows.
    rewrite filter_map_same.
    + rewrite tally_map_same, length_map; [done|].
      intros t. destruct (mark_step_fields localIds t) as (? & ? & _). by split.
    + intros t. destruct (mark_step_fields localIds t) as (_ & _ & Hf).
      cbv zeta in Hf. cbv zeta. by rewrite Hf.
Qed.

(** [X7] Neither [markAsSynced] nor a push, whatever the network does, changes a
    total: the balance over the whole table and the summary of every range
    are what they were. *)
Theorem push_keeps_totals (e : env) (tz : Z) (startDate endDate : datestr)
    (s : db) :
  getTotalBalance (fst (pushPendingTransactions e s)) = getTotalBalance s
  ∧ getSummary tz startDate endDate (fst (pushPendingTransactions e s))
    = getSummary tz startDate endDate s
  ∧ (∀ localIds,
       getTotalBalance (markAsSynced localIds s) = getTotalBalance s
       ∧ getSummary tz startDate endDate (markAsSynced localIds s)
         = getSummary tz startDate endDate s).
Proof.
  assert (Hmark := λ localIds, markAsSynced_totals localIds tz startDate endDate s).
  split; [|split; [|exact Hmark]];
    unfold pushPendingTransactions;
    destruct (sync_disabled e); try done;
    destruct (Nat.eqb _ _); try done;
    destruct (post_sync e _) as [|[|]]; try done; apply Hmark.
Qed.

Lemma markAsSynced_pending_none (s : db) :
  getPendingTransactions (markAsSynced (map localId (getPendingTransactions s)) s) = [].
Proof.
  unfold getPendingTransactions at 1. rewrite markAsSynced_pending.
  apply getPending_all_synced.
Qed.

(** [X8] Every record that was pending before a push is accounted for after it:
    the number sent and the number still pending in the store add up to the
    number that was pending.  The [pending] of the result is the number
    still pending in the store when the push was attempted, and 0 when the
    device is offline or no endpoint is configured, however many wait. *)
Theorem push_accounts_for_pending (e : env) (s : db) :
  let s' := fst (pushPendingTransactions e s) in
  let r := snd (pushPendingTransactions e s) in
  length (getPendingTransactions s)
  = (synced r + length (getPendingTransactions s'))%nat
  ∧ pending r = (if sync_disabled e then 0 else length (getPendingTransactions s'))%nat.
Proof.
  intros s' r. subst s' r. unfold pushPendingTransactions.
  destruct (sync_disabled e); [done|].
  destruct (Nat.eqb (length (getPendingTransactions s)) 0) eqn:Hlen.
  { cbn [fst snd synced pending]. by rewrite (length_eqb_0 _ Hlen). }
  destruct (post_sync e _) as [|[|]]; cbv zeta; cbn [fst snd synced pending];
    try done.
  rewrite markAsSynced_pending_none, length_map. cbn [length]. split; [lia | done].
Qed.

(** ** Ranges of dates *)

Lemma js_add_comm (a b : jsnum) : js_add a b = js_add b a.
Proof. destruct a, b; simpl; try reflexivity. f_equal. lia. Qed.

Lemma range_invalid_start (tz : Z) (endDate : datestr) (s : db) :
  getTransactionsByDateRange tz None endDate s = [].
Proof.
  unfold getTransactionsByDateRange. cbn [new_Date fmap option_fmap option_map setHours].
  induction (transactions s) as [|t rows IH]; [done|]. cbn [List.filter].
  replace (date_ge (new_Date (fecha t)) None) with false; [done|].
  by destruct (new_Date (fecha t)).
Qed.

Lemma range_invalid_end (tz : Z) (startDate : datestr) (s : db) :
  getTransactionsByDateRange tz startDate None s = [].
Proof.
  unfold getTransactionsByDateRange. cbn [new_Date fmap option_fmap option_map setHours].
  induction (transactions s) as [|t rows IH]; [done|]. cbn [List.filter].
  replace (date_le (new_Date (fecha t)) None) with false;
    [by rewrite andb_false_r|].
  by destruct (new_Date (fecha t)).
Qed.

Lemma filter_none {A} (f : A → bool) (l : list A) :
  (∀ x, f x = false) → List.filter f l = [].
Proof. intros H. induction l as [|x l IH]; simpl; [done|]. by rewrite H. Qed.

(** [X9] The edges of [getTransactionsByDateRange]: a start or an end that is no
    date gives the empty list, and so does a range whose end lies before its
    start; a row without a valid date is in no range; what is returned are
    rows of the table in table order.  On the empty list [getSummary] is
    all zeros. *)
Theorem date_range_edges (tz : Z) (s : db) :
  (∀ endDate, getTransactionsByDateRange tz None endDate s = [])
  ∧ (∀ startDate, getTransactionsByDateRange tz startDate None s = [])
  ∧ (∀ ds de, de < ds → getTransactionsByDateRange tz (Some ds) (Some de) s = [])
  ∧ (∀ startDate endDate t,
       t ∈ getTransactionsByDateRange tz startDate endDate s →
       t ∈ transactions s ∧ ∃ d, fecha t = Some d)
  ∧ (∀ startDate endDate,
       getTransactionsByDateRange tz startDate endDate s `sublist_of` transactions s)
  ∧ (∀ startDate endDate,
       getTransactionsByDateRange tz startDate endDate s = [] →
       getSummary tz startDate endDate s
       = {| totalIngresos := Fin 0; totalGastos := Fin 0; balance := Fin 0;
            transacciones := 0 |}).
Proof.
  split; [intros endDate; apply range_invalid_start|].
  split; [intros startDate; apply range_invalid_end|].
  split; [|split; [|split]].
  - intros ds de Hlt. rewrite getTransactionsByDateRange_filter.
    apply filter_none. intros t. unfold dated_within.
    destruct (fecha t) as [d|]; [|done].
    apply andb_false_iff.
    destruct (Z.leb_spec ds d); [right; apply Z.leb_gt; lia | by left].
  - intros startDate endDate t Ht. unfold getTransactionsByDateRange in Ht.
    apply list_elem_of_In, filter_In in Ht as [Hin Hd].
    split; [by apply list_elem_of_In|].
    destruct (fecha t) as [d|]; [by exists d|]. discriminate Hd.
  - intros startDate endDate. apply filter_sublist.
  - intros startDate endDate Hnil. unfold getSummary. by rewrite Hnil.
Qed.

Lemma sum_montos_split (f p q r : tx → bool) (l : list tx) :
  (∀ t, p t = q t || r t) → (∀ t, q t && r t = false) →
  sum_montos (List.filter f (List.filter p l))
  = js_add (sum_montos (List.filter f (List.filter q l)))
           (sum_montos (List.filter f (List.filter r l)))
  ∧ length (List.filter p l)
    = (length (List.filter q l) + length (List.filter r l))%nat.
Proof.
  intros Hp Hqr. induction l as [|t l [IHs IHl]]; [done|].
  cbn [List.filter]. rewrite Hp. specialize (Hqr t).
  destruct (q t), (r t); try discriminate Hqr; cbn [orb List.filter length].
  - split; [|lia]. destruct (f t); cbn [sum_montos]; [|done].
    by rewrite IHs, js_add_assoc.
  - split; [|lia]. destruct (f t); cbn [sum_montos]; [|done].
    rewrite IHs, <- !js_add_assoc. f_equal. apply js_add_comm.
  - by split.
Qed.

Lemma dated_within_split (a b c : Z) (t : tx) :
  a - 1 ≤ b ≤ c →
  dated_within a c t = dated_within a b t || dated_within (b + 1) c t
  ∧ dated_within a b t && dated_within (b + 1) c t = false.
Proof.
  intros Habc. unfold dated_within. destruct (fecha t) as [d|]; [|done].
  destruct (Z.leb_spec a d), (Z.leb_spec d c), (Z.leb_spec d b),
    (Z.leb_spec (b + 1) d); simpl; split; try reflexivity; lia.
Qed.



(** [X11] A range that holds the date of every row gives the totals of the whole
    table: the summary agrees with [getTotalBalance] and counts every row. *)
Theorem getSummary_of_everything (tz ds de : Z) (s : db) :
  (∀ t, t ∈ transactions s → dated_within ds de t = true) →
  totalIngresos (getSummary tz (Some ds) (Some de) s) = ingresos (getTotalBalance s)
  ∧ totalGastos (getSummary tz (Some ds) (Some de) s) = gastos (getTotalBalance s)
  ∧ balance (getSummary tz (Some ds) (Some de) s) = tb_balance (getTotalBalance s)
  ∧ transacciones (getSummary tz (Some ds) (Some de) s) = length (transactions s).
Proof.
  intros Hall. unfold getSummary, getTotalBalance.
  rewrite getTransactionsByDateRange_filter, (filter_all _ _ Hall). by repeat split.
Qed.

Lemma getSummary_of_everything_witness :
  totalIngresos (getSummary 0 (Some today) (Some today) store_two_pending)
  = ingresos (getTotalBalance store_two_pending).
Proof.
  apply (getSummary_of_everything 0 today today store_two_pending).
  intros t Ht. vm_compute in Ht.
  apply elem_of_cons in Ht as [-> | Ht]; [reflexivity|].
  apply elem_of_cons in Ht as [-> | Ht]; [reflexivity|].
  by apply elem_of_nil in Ht.
Defined.

(** [X12] A row without a valid date is stored like any other, the table grows by
    it, but it is in the summary of no range. *)
Theorem undated_row_in_no_summary (tz : Z) (startDate endDate : datestr)
    (transaction : new_tx) (now : string) (s : db) :
  n_fecha transaction = None →
  getSummary tz startDate endDate (fst (addTransaction transaction now s))
  = getSummary tz startDate endDate s
  ∧ length (transactions (fst (addTransaction transaction now s)))
    = S (length (transactions s)).
Proof.
  intros Hf. split.
  - unfold getSummary, getTransactionsByDateRange.
    cbn [addTransaction fst transactions]. rewrite filter_snoc.
    cbn [fecha]. rewrite Hf. cbn [new_Date fmap option_fmap option_map date_ge andb].
    by rewrite app_nil_r.
  - cbn [addTransaction fst transactions]. rewrite length_app. simpl. lia.
Qed.

Lemma undated_row_in_no_summary_witness :
  getSummary 0 (Some today) (Some today)
    (fst (addTransaction (income_500 None) "t" store_one_pending))
  = getSummary 0 (Some today) (Some today) store_one_pending.
Proof.
  apply (undated_row_in_no_summary 0 (Some today) (Some today) (income_500 None) "t"
           store_one_pending). reflexivity.
Defined.

(** * More of sync.js *)

Lemma sync_disabled_iff (e : env) :
  sync_disabled e = true ↔ onLine e = false ∨ api_url e = EmptyString.
Proof.
  unfold sync_disabled, getApiUrl. rewrite orb_true_iff, negb_true_iff.
  by rewrite String.eqb_eq.
Qed.

(** [X13] Offline, or with no endpoint configured, the combined sync does nothing
    at all: it returns the store it was given, watermark included, and
    reports 0 sent, 0 pulled and 0 pending, however many records wait. *)
Theorem sync_offline_does_nothing (e : env) (now : clock) (s : db) :
  onLine e = false ∨ api_url e = EmptyString →
  syncPendingTransactions e now s
  = (s, {| sync_synced := 0; sync_pulled := 0; sync_pending := 0 |}).
Proof.
  intros Hoff. apply sync_disabled_iff in Hoff.
  unfold syncPendingTransactions, pushPendingTransactions, pullRemoteTransactions.
  by rewrite Hoff.
Qed.

Lemma sync_offline_does_nothing_witness :
  syncPendingTransactions (setApiUrl EmptyString env_down) clock_a store_two_pending
  = (store_two_pending, {| sync_synced := 0; sync_pulled := 0; sync_pending := 0 |}).
Proof.
  apply (sync_offline_does_nothing (setApiUrl EmptyString env_down) clock_a
           store_two_pending).
  right. reflexivity.
Defined.

(** [X14] A pull whose request throws, whose body cannot be read or whose response
    is not ok returns the store it was given and 0: no row is touched and
    the watermark is not written. *)
Theorem pull_failure_changes_nothing (e : env) (now : clock) (s : db) :
  get_transactions e = GetThrows ∨ get_transactions e = GetNotOk →
  pullRemoteTransactions e now s = (s, 0%nat).
Proof.
  intros Hfail. unfold pullRemoteTransactions.
  destruct (sync_disabled e); [done|]. by destruct Hfail as [-> | ->].
Qed.

Lemma pull_failure_changes_nothing_witness :
  pullRemoteTransactions env_down clock_a store_two_pending = (store_two_pending, 0%nat).
Proof.
  apply (pull_failure_changes_nothing env_down clock_a store_two_pending).
  left. reflexivity.
Defined.

Lemma upsert_calls_no_ids (now : clock) (L : list remote_tx) (i : nat) :
  (∀ t, t ∈ L → truthy (r_id t) = false) → upsert_calls now i L = [].
Proof.
  revert i. induction L as [|t L IH]; intros i Hnone; [done|].
  cbn [upsert_calls]. rewrite (Hnone t) by (by left).
  apply IH. intros t' Ht'. apply Hnone. by right.
Qed.

(** [X15] A pull that gets a response with nothing to merge, no [transactions]
    property, an empty list or only records without an id, merges nothing:
    it reports 0 and leaves the store as it was but for the watermark, which
    it sets to the time of its end. *)
Theorem pull_nothing_to_merge (e : env) (now : clock) (s : db)
    (L : option (list remote_tx)) :
  onLine e = true →
  api_url e ≠ EmptyString →
  get_transactions e = GetJson L →
  (∀ t, t ∈ default [] L → truthy (r_id t) = false) →
  pullRemoteTransactions e now s
  = (setLastSyncTimestamp (now (length (default [] L))) s, 0%nat).
Proof.
  intros Hon Hurl Hget Hnone.
  rewrite (pull_json e now s L (sync_enabled e Hon Hurl) Hget).
  by rewrite (upsert_calls_no_ids now _ 0 Hnone).
Qed.

Lemma pull_nothing_to_merge_witness :
  pullRemoteTransactions (online (λ _, PostThrows) (GetJson None)) clock_a
    store_two_pending
  = (setLastSyncTimestamp (clock_a 0%nat) store_two_pending, 0%nat).
Proof.
  apply (pull_nothing_to_merge (online (λ _, PostThrows) (GetJson None)) clock_a
           store_two_pending None);
    [reflexivity | discriminate | reflexivity |].
  intros t Ht. by apply elem_of_nil in Ht.
Defined.

(** ** The endpoint setting *)

Lemma strip_trailing_slashes_slashes (n : nat) :
  strip_trailing_slashes (slashes n) = EmptyString.
Proof. induction n as [|n IH]; [done|]. cbn. by rewrite IH. Qed.

Lemma append_cons (c : ascii) (a b : string) :
  String.append (String c a) b = String c (String.append a b).
Proof. reflexivity. Qed.

Lemma strip_trailing_slashes_decompose (url : string) :
  ∃ n, url = String.append (strip_trailing_slashes url) (slashes n)
       ∧ (strip_trailing_slashes url = EmptyString → url = slashes n).
Proof.
  induction url as [|c rest (n & Hrest & Hall)].
  - by exists 0%nat.
  - cbn [strip_trailing_slashes].
    destruct (Ascii.eqb_spec c "/"%char) as [-> | Hc]; cbn [andb].
    + destruct (String.eqb_spec (strip_trailing_slashes rest) EmptyString) as [He|He].
      * exists (S n). rewrite (Hall He). by split.
      * exists n. split; [by rewrite append_cons, <- Hrest | discriminate].
    + exists n. split; [by rewrite append_cons, <- Hrest | discriminate].
Qed.

Lemma strip_trailing_slashes_no_slash (url : string) :
  ends_with_slash (strip_trailing_slashes url) = false.
Proof.
  induction url as [|c rest IH]; [done|].
  cbn [strip_trailing_slashes].
  destruct (Ascii.eqb_spec c "/"%char) as [-> | Hc]; cbn [andb].
  - destruct (String.eqb_spec (strip_trailing_slashes rest) EmptyString) as [He|He];
      [done|].
    cbn [ends_with_slash].
    destruct (strip_trailing_slashes rest); [by destruct He | exact IH].
  - cbn [ends_with_slash].
    destruct (strip_trailing_slashes rest) eqn:E; [|exact IH].
    by apply Ascii.eqb_neq.
Qed.

Lemma strip_trailing_slashes_fixed (url : string) :
  ends_with_slash url = false → strip_trailing_slashes url = url.
Proof.
  induction url as [|c rest IH]; [done|].
  cbn [ends_with_slash strip_trailing_slashes]. destruct rest as [|c' rest'].
  - intros Hc. cbn. rewrite Hc. reflexivity.
  - intros Hrest. rewrite (IH Hrest). cbn [String.eqb]. by rewrite andb_false_r.
Qed.

(** [X16] Saving an endpoint address stores it without its trailing slashes: what
    is stored does not end in a slash, the text typed is what is stored
    followed by slashes only, and saving what is stored stores the same.
    An address of nothing but slashes is stored as the empty string, and
    then every sync is a no-op. *)
Theorem save_api_url_strips_slashes (url : string) (e : env) :
  ends_with_slash (getApiUrl (save_api_url url e)) = false
  ∧ (∃ n, url = String.append (getApiUrl (save_api_url url e)) (slashes n))
  ∧ save_api_url (getApiUrl (save_api_url url e)) e = save_api_url url e
  ∧ (getApiUrl (save_api_url url e) = EmptyString ↔ ∃ n, url = slashes n)
  ∧ ((∃ n, url = slashes n) →
     ∀ now s, syncPendingTransactions (save_api_url url e) now s
              = (s, {| sync_synced := 0; sync_pulled := 0; sync_pending := 0 |})).
Proof.
  unfold save_api_url, getApiUrl, setApiUrl. cbn [api_url].
  assert (Hempty : strip_trailing_slashes url = EmptyString ↔ ∃ n, url = slashes n).
  { split.
    - intros He. destruct (strip_trailing_slashes_decompose url) as (n & _ & Hall).
      exists n. by apply Hall.
    - intros [n ->]. apply strip_trailing_slashes_slashes. }
  split; [apply strip_trailing_slashes_no_slash|]. split.
  { destruct (strip_trailing_slashes_decompose url) as (n & Hn & _). by exists n. }
  split.
  { by rewrite (strip_trailing_slashes_fixed _ (strip_trailing_slashes_no_slash url)). }
  split; [exact Hempty|].
  intros Hsl now s. apply Hempty in Hsl.
  unfold syncPendingTransactions, pushPendingTransactions, pullRemoteTransactions,
    sync_disabled, getApiUrl. cbn [api_url onLine]. rewrite Hsl.
  cbn [String.eqb]. by rewrite orb_true_r.
Qed.

(** * utils.js: dates *)

Lemma zone_shift_west (tz : Z) : - msPerDay < tz ≤ 0 → zone_shift tz = 0.
Proof.
  unfold zone_shift, msPerDay. intros H. apply Z.div_small. lia.
Qed.

Lemma zone_shift_east (tz : Z) : 0 < tz ≤ msPerDay → zone_shift tz = -1.
Proof.
  unfold zone_shift, msPerDay. intros H.
  symmetry. apply (Z.div_unique_pos _ _ _ (86400000 - tz)); lia.
Qed.

Lemma iso_local_midnight (tz day : Z) :
  iso_date (local_midnight tz day) = Some (day + zone_shift tz).
Proof.
  unfold iso_date, local_midnight, zone_shift. f_equal.
  replace (day * msPerDay - tz) with (day * msPerDay + - tz) by lia.
  apply Z.div_add_l. unfold msPerDay. lia.
Qed.

Lemma local_day_of_date (tz d : Z) :
  local_day tz (d * msPerDay) = d + tz `div` msPerDay.
Proof. unfold local_day. apply Z.div_add_l. unfold msPerDay. lia. Qed.

Lemma getDay_range (day : Z) : 0 ≤ getDay day ≤ 6.
Proof. unfold getDay. pose proof (Z.mod_pos_bound (day + 4) 7). lia. Qed.

Lemma getDay_week_start (day : Z) : getDay (day - getDay day) = 0.
Proof.
  unfold getDay.
  pose proof (Z.div_mod (day + 4) 7 ltac:(lia)) as Hdm.
  replace (day - (day + 4) `mod` 7 + 4) with (0 + (day + 4) `div` 7 * 7) by lia.
  rewrite Z.mod_add by lia. reflexivity.
Qed.


Lemma range_same_day (tz day : Z) (s : db) :
  getTransactionsByDateRange tz (Some day) (Some day) s
  = List.filter (dated_on day) (transactions s).
Proof.
  rewrite getTransactionsByDateRange_filter. apply filter_ext_eq. intros t.
  unfold dated_within, dated_on. destruct (fecha t) as [d|].
  - destruct (decide (d = day)) as [-> | Hne].
    + rewrite bool_decide_eq_true_2 by done.
      apply andb_true_iff. split; apply Z.leb_le; lia.
    + rewrite bool_decide_eq_false_2 by congruence.
      apply andb_false_iff.
      destruct (Z.leb_spec day d); [right; apply Z.leb_gt; lia | by left].
  - by rewrite bool_decide_eq_false_2.
Qed.

(** [X18] The report of the day, [getTransactionsByDateRange] over the dates
    [getPeriodDates('day')] gives, holds exactly the rows dated the local day
    moved by the shift of the zone: the rows dated today from UTC westwards,
    the rows dated yesterday east of UTC. *)
Theorem day_report_rows (month_start year_start : Z → Z) (tz now : Z) (s : db) :
  let p := getPeriodDates month_start year_start "day" tz now in
  getTransactionsByDateRange tz (period_start p) (period_end p) s
  = List.filter (dated_on (local_day tz now + zone_shift tz)) (transactions s)
  ∧ (- msPerDay < tz ≤ 0 →
     getTransactionsByDateRange tz (period_start p) (period_end p) s
     = List.filter (dated_on (local_day tz now)) (transactions s))
  ∧ (0 < tz ≤ msPerDay →
     getTransactionsByDateRange tz (period_start p) (period_end p) s
     = List.filter (dated_on (local_day tz now - 1)) (transactions s)).
Proof.
  intros p. subst p. unfold getPeriodDates.
  cbn [String.eqb Ascii.eqb Bool.eqb andb period_start period_end].
  rewrite iso_local_midnight, range_same_day.
  split; [done|]. split; intros Htz.
  - by rewrite (zone_shift_west tz Htz), Z.add_0_r.
  - by rewrite (zone_shift_east tz Htz).
Qed.

(** [X19] A record saved with the date the form proposes, [getToday()], is in the
    report of the day taken at the same instant exactly when the UTC day is
    the local day moved by the shift of the zone.  From UTC westwards that
    is while the UTC day has not run ahead of the local day; east of UTC it
    is only while the UTC day still lags behind the local day. *)
Theorem default_date_in_day_report (month_start year_start : Z → Z) (tz now : Z)
    (transaction : new_tx) (stamp : string) (s : db) :
  n_fecha transaction = getToday now →
  let s' := fst (addTransaction transaction stamp s) in
  let p := getPeriodDates month_start year_start "day" tz now in
  (new_row transaction stamp s
     ∈ getTransactionsByDateRange tz (period_start p) (period_end p) s'
   ↔ now `div` msPerDay = local_day tz now + zone_shift tz)
  ∧ (- msPerDay < tz ≤ 0 →
     (new_row transaction stamp s
        ∈ getTransactionsByDateRange tz (period_start p) (period_end p) s'
      ↔ - tz ≤ now `mod` msPerDay))
  ∧ (0 < tz < msPerDay →
     (new_row transaction stamp s
        ∈ getTransactionsByDateRange tz (period_start p) (period_end p) s'
      ↔ msPerDay - tz ≤ now `mod` msPerDay)).
Proof.
  intros Hf s' p.
  assert (Hin : new_row transaction stamp s
                  ∈ getTransactionsByDateRange tz (period_start p) (period_end p) s'
                ↔ now `div` msPerDay = local_day tz now + zone_shift tz).
  { subst p s'. unfold getPeriodDates.
    cbn [String.eqb Ascii.eqb Bool.eqb andb period_start period_end].
    rewrite iso_local_midnight, range_same_day.
    rewrite list_elem_of_In, filter_In, <- list_elem_of_In.
    unfold dated_on. rewrite bool_decide_eq_true.
    cbn [new_row fecha]. rewrite Hf. unfold getToday, iso_date.
    split.
    - intros [_ [= ->]]. reflexivity.
    - intros ->. split; [|done].
      cbn [addTransaction fst transactions]. apply elem_of_app. right. by left. }
  split; [exact Hin|]. unfold local_day, msPerDay in *.
  pose proof (Z.div_mod now 86400000 ltac:(lia)) as Hdm.
  pose proof (Z.mod_pos_bound now 86400000 ltac:(lia)) as Hm.
  split; intros Htz; rewrite Hin.
  - rewrite (zone_shift_west tz) by (unfold msPerDay; lia). rewrite Z.add_0_r.
    split.
    + intros Heq.
      pose proof (Z.div_mod (now + tz) 86400000 ltac:(lia)) as Hdm'.
      pose proof (Z.mod_pos_bound (now + tz) 86400000 ltac:(lia)) as Hm'.
      lia.
    + intros Hle. apply (Z.div_unique_pos _ _ _ (now `mod` 86400000 + tz)); lia.
  - rewrite (zone_shift_east tz) by (unfold msPerDay; lia).
    split.
    + intros Heq.
      pose proof (Z.div_mod (now + tz) 86400000 ltac:(lia)) as Hdm'.
      pose proof (Z.mod_pos_bound (now + tz) 86400000 ltac:(lia)) as Hm'.
      lia.
    + intros Hle.
      assert ((now + tz) `div` 86400000 = now `div` 86400000 + 1); [|lia].
      symmetry.
      apply (Z.div_unique_pos _ _ _ (now `mod` 86400000 + tz - 86400000)); lia.
Qed.

(** In central Mexico at 9:00 (15:00 UTC) the record saved with the proposed
    date is in the report of the day. *)
Lemma default_date_in_day_report_witness :
  new_row (income_500 (getToday afternoon_utc)) "t" empty_db
  ∈ getTransactionsByDateRange tz_mexico
      (period_start (getPeriodDates civil_month_start civil_year_start "day"
                       tz_mexico afternoon_utc))
      (period_end (getPeriodDates civil_month_start civil_year_start "day"
                     tz_mexico afternoon_utc))
      (fst (addTransaction (income_500 (getToday afternoon_utc)) "t" empty_db)).
Proof.
  destruct (default_date_in_day_report civil_month_start civil_year_start tz_mexico
              afternoon_utc (income_500 (getToday afternoon_utc)) "t" empty_db
              eq_refl) as [Hiff _].
  apply Hiff. reflexivity.
Defined.

(** [X20] What [formatRelativeDate] shows for a date [d], with [k] the number of
    days from the local day of midnight UTC of [d] to the local day of the
    call: 'Hoy' for 0, 'Ayer' for 1, 'Hace k días' for every other [k] below
    7, negative ones included, and what [formatDate] makes of the value from
    7 on; a value that is no date goes to [formatDate] too.  West of UTC the midnight UTC of [d] falls on the
    local day before [d], so a record dated today reads 'Ayer' and one dated
    tomorrow reads 'Hoy'; from UTC eastwards a record dated today reads
    'Hoy' and one dated tomorrow 'Hace -1 días'. *)
Theorem formatRelativeDate_cases (tz now d : Z) :
  let L := local_day tz now in
  let k := L - (d + tz `div` msPerDay) in
  formatRelativeDate tz now (Some d)
  = (if k =? 0 then Hoy else if k =? 1 then Ayer
     else if k <? 7 then Hace k else Formatted (Some d))
  ∧ formatRelativeDate tz now None = Formatted None
  ∧ (- msPerDay ≤ tz < 0 →
     formatRelativeDate tz now (Some L) = Ayer
     ∧ formatRelativeDate tz now (Some (L + 1)) = Hoy)
  ∧ (0 ≤ tz < msPerDay →
     formatRelativeDate tz now (Some L) = Hoy
     ∧ formatRelativeDate tz now (Some (L + 1)) = Hace (-1)).
Proof.
  intros L k.
  assert (Hgen : ∀ d', formatRelativeDate tz now (Some d')
            = (let k' := L - (d' + tz `div` msPerDay) in
               if k' =? 0 then Hoy else if k' =? 1 then Ayer
               else if k' <? 7 then Hace k' else Formatted (Some d'))).
  { intros d'. unfold formatRelativeDate.
    cbn [new_Date fmap option_fmap option_map]. rewrite local_day_of_date. fold L.
    replace ((local_midnight tz L - local_midnight tz (d' + tz `div` msPerDay))
               `div` msPerDay)
      with (L - (d' + tz `div` msPerDay)); [done|].
    unfold local_midnight.
    replace (L * msPerDay - tz - ((d' + tz `div` msPerDay) * msPerDay - tz))
      with ((L - (d' + tz `div` msPerDay)) * msPerDay) by lia.
    symmetry. apply Z.div_mul. unfold msPerDay. lia. }
  split; [apply Hgen|]. split; [reflexivity|]. split; intros Htz.
  - assert (Hdiv : tz `div` msPerDay = -1).
    { symmetry. unfold msPerDay in *.
      apply (Z.div_unique_pos _ _ _ (tz + 86400000)); lia. }
    rewrite !Hgen, Hdiv. cbv zeta.
    replace (L - (L + -1)) with 1 by lia.
    replace (L - (L + 1 + -1)) with 0 by lia. by split.
  - assert (Hdiv : tz `div` msPerDay = 0).
    { unfold msPerDay in *. apply Z.div_small. lia. }
    rewrite !Hgen, Hdiv. cbv zeta.
    replace (L - (L + 0)) with 0 by lia.
    replace (L - (L + 1 + 0)) with (-1) by lia. by split.
Qed.

(** * reports.js: the data of the bar chart *)

#[local] Instance datestr_le_total : Total datestr_le.
Proof. intros [x|] [y|]; simpl; try tauto. lia. Qed.

#[local] Instance datestr_le_trans : Transitive datestr_le.
Proof. intros [x|] [y|] [z|]; simpl; try tauto. lia. Qed.

#[local] Instance datestr_le_antisym : AntiSymm (=) datestr_le.
Proof. intros [x|] [y|]; simpl; try tauto. intros. f_equal. lia. Qed.

Lemma daily_step_lookup (m : gmap datestr day_totals) (t : tx) (d : datestr) :
  daily_step m t !! d
  = if bool_decide (fecha t = d)
    then Some (entry_of
                 (if is_ingreso t
                  then (js_add (day_ingresos (day_entry m d)) (monto t),
                        day_gastos (day_entry m d))
                  else (day_ingresos (day_entry m d),
                        js_add (day_gastos (day_entry m d)) (monto t))))
    else m !! d.
Proof.
  unfold daily_step, day_entry.
  destruct (bool_decide_reflect (fecha t = d)) as [<- | Hne].
  - rewrite lookup_alter_eq. destruct (m !! fecha t) as [entry|] eqn:E.
    + rewrite E. cbn [fmap option_fmap option_map default entry_of].
      by destruct (is_ingreso t).
    + rewrite lookup_insert_eq. cbn [fmap option_fmap option_map default entry_of].
      by destruct (is_ingreso t).
  - rewrite lookup_alter_ne by done.
    destruct (m !! fecha t); [done | by rewrite lookup_insert_ne].
Qed.

Lemma filter_has_date_none (d : datestr) (l : list tx) :
  d ∉ map fecha l → List.filter (has_date d) l = [].
Proof.
  induction l as [|t l IH]; [done|]. cbn [map List.filter].
  rewrite not_elem_of_cons. intros [Hne Hin]. unfold has_date at 1.
  rewrite bool_decide_eq_false_2 by congruence. by apply IH.
Qed.

(** The entry of a day after the loop: the two totals of the rows of that
    day, as the loop of the summary would make them. *)
Lemma daily_lookup (l : list tx) (d : datestr) :
  fold_left daily_step l ∅ !! d
  = if bool_decide (d ∈ map fecha l)
    then Some (entry_of (tally (List.filter (has_date d) l)))
    else None.
Proof.
  induction l as [|t l IH] using rev_ind.
  - cbn [fold_left map]. rewrite lookup_empty.
    by rewrite bool_decide_eq_false_2 by apply not_elem_of_nil.
  - rewrite fold_left_app. cbn [fold_left]. rewrite daily_step_lookup.
    rewrite map_app, filter_snoc. cbn [map]. unfold day_entry. rewrite IH.
    change (has_date d t) with (bool_decide (fecha t = d)).
    destruct (decide (fecha t = d)) as [Heq | Hne].
    + rewrite !(bool_decide_eq_true_2 (fecha t = d)) by done.
      rewrite (bool_decide_eq_true_2 (d ∈ map fecha l ++ [fecha t]))
        by (apply elem_of_app; right; rewrite Heq; by left).
      f_equal. rewrite tally_snoc.
      destruct (bool_decide_reflect (d ∈ map fecha l)) as [Hin | Hin].
      * by destruct (is_ingreso t).
      * rewrite (filter_has_date_none d l Hin). by destruct (is_ingreso t).
    + rewrite !(bool_decide_eq_false_2 (fecha t = d)) by done.
      rewrite app_nil_r.
      destruct (bool_decide_reflect (d ∈ map fecha l)) as [Hin | Hin].
      * by rewrite (bool_decide_eq_true_2 (d ∈ map fecha l ++ [fecha t]))
          by (apply elem_of_app; by left).
      * rewrite (bool_decide_eq_false_2 (d ∈ map fecha l ++ [fecha t])); [done|].
        rewrite elem_of_app, list_elem_of_singleton. intros [|]; congruence.
Qed.

Lemma sorted_days_spec (l : list tx) :
  let days := sorted_days (fold_left daily_step l ∅) in
  StronglySorted datestr_le days ∧ NoDup days
  ∧ ∀ d, d ∈ days ↔ d ∈ map fecha l.
Proof.
  intros days. subst days. unfold sorted_days.
  split; [apply StronglySorted_merge_sort; apply _|]. split.
  - rewrite merge_sort_Permutation. apply NoDup_fst_map_to_list.
  - intros d. rewrite merge_sort_Permutation.
    change (map fst (map_to_list (fold_left daily_step l ∅)))
      with ((map_to_list (fold_left daily_step l ∅)).*1).
    rewrite list_elem_of_fmap. split.
    + intros ([d' entry] & -> & Hin). apply elem_of_map_to_list in Hin.
      rewrite daily_lookup in Hin. cbn [fst].
      destruct (bool_decide_reflect (d' ∈ map fecha l)); [done | discriminate].
    + intros Hin.
      exists (d, entry_of (tally (List.filter (has_date d) l))). split; [done|].
      apply elem_of_map_to_list. rewrite daily_lookup.
      by rewrite bool_decide_eq_true_2.
Qed.

Lemma day_entry_tally (l : list tx) (d : datestr) :
  day_entry (fold_left daily_step l ∅) d = entry_of (tally (List.filter (has_date d) l)).
Proof.
  unfold day_entry. rewrite daily_lookup.
  destruct (bool_decide_reflect (d ∈ map fecha l)) as [Hin | Hin]; [done|].
  by rewrite (filter_has_date_none d l Hin).
Qed.

Lemma prepareChartData_days (label : datestr → string) (l : list tx) :
  ∃ days,
    StronglySorted datestr_le days ∧ NoDup days
    ∧ (∀ d, d ∈ days ↔ ∃ t, t ∈ l ∧ fecha t = d)
    ∧ labels (prepareChartData label l) = map label days
    ∧ chart_ingresos (prepareChartData label l)
      = map (λ d, sum_montos (List.filter is_ingreso (List.filter (has_date d) l))) days
    ∧ chart_gastos (prepareChartData label l)
      = map (λ d, sum_montos (List.filter not_ingreso (List.filter (has_date d) l))) days
    ∧ length (chart_ingresos (prepareChartData label l)) = length days
    ∧ length (chart_gastos (prepareChartData label l)) = length days
    ∧ (l = [] → days = []).
Proof.
  exists (sorted_days (fold_left daily_step l ∅)).
  destruct (sorted_days_spec l) as (Hsorted & Hnd & Hin).
  split; [exact Hsorted|]. split; [exact Hnd|]. split.
  { intros d. rewrite Hin, list_elem_of_fmap. split.
    - intros (t & -> & Ht). by exists t.
    - intros (t & Ht & <-). by exists t. }
  unfold prepareChartData. cbn [labels chart_ingresos chart_gastos].
  split; [done|]. split; [|split; [|split; [|split]]].
  - apply map_ext. intros d. by rewrite day_entry_tally, tally_sums.
  - apply map_ext. intros d. by rewrite day_entry_tally, tally_sums.
  - by rewrite length_map.
  - by rewrite length_map.
  - intros ->. reflexivity.
Qed.

Lemma sum_list_zeros {A} (l : list A) : sum_list (map (λ _, Fin 0) l) = Fin 0.
Proof. induction l as [|x l IH]; [done|]. cbn [map sum_list]. by rewrite IH. Qed.

Lemma sum_list_bump (x : datestr) (a : jsnum) (g : datestr → jsnum) (days : list datestr) :
  NoDup days → x ∈ days →
  sum_list (map (λ d, if bool_decide (x = d) then js_add a (g d) else g d) days)
  = js_add a (sum_list (map g days)).
Proof.
  induction days as [|d days IH]; intros Hnd Hx; [by apply elem_of_nil in Hx|].
  apply NoDup_cons in Hnd as [Hd Hnd]. cbn [map sum_list].
  destruct (bool_decide_reflect (x = d)) as [-> | Hne].
  - rewrite js_add_assoc. do 3 f_equal. apply map_ext_in. intros d' Hd'.
    rewrite bool_decide_eq_false_2; [done|]. intros <-.
    by apply Hd, list_elem_of_In.
  - apply elem_of_cons in Hx as [Hx | Hx]; [done|].
    rewrite (IH Hnd Hx). rewrite <- !js_add_assoc. f_equal. apply js_add_comm.
Qed.

Lemma sum_by_day (f : tx → bool) (l : list tx) (days : list datestr) :
  NoDup days → (∀ t, t ∈ l → fecha t ∈ days) →
  sum_list (map (λ d, sum_montos (List.filter f (List.filter (has_date d) l))) days)
  = sum_montos (List.filter f l).
Proof.
  intros Hnd. induction l as [|t l IH]; intros Hcover.
  - cbn [List.filter sum_montos]. apply sum_list_zeros.
  - assert (Hl : ∀ t', t' ∈ l → fecha t' ∈ days)
      by (intros t' Ht'; apply Hcover; by right).
    specialize (IH Hl). cbn [List.filter]. destruct (f t) eqn:Hf.
    + cbn [sum_montos]. rewrite <- IH.
      rewrite <- (sum_list_bump (fecha t) (monto t) _ days Hnd)
        by (apply Hcover; by left).
      f_equal. apply map_ext. intros d. unfold has_date at 1.
      destruct (bool_decide (fecha t = d)); [|done].
      cbn [List.filter]. by rewrite Hf.
    + rewrite <- IH. f_equal. apply map_ext. intros d.
      destruct (has_date d t); [|done]. cbn [List.filter]. by rewrite Hf.
Qed.


Lemma all_dated (l : list datestr) :
  (∀ d, d ∈ l → d ≠ None) → ∃ zs : list Z, l = map Some zs.
Proof.
  induction l as [|d l IH]; intros Hall; [by exists []|].
  destruct IH as [zs ->]; [intros d' Hd'; apply Hall; by right|].
  destruct d as [z|]; [by exists (z :: zs)|].
  by destruct (Hall None); [left|].
Qed.

Lemma sorted_dated (zs : list Z) :
  StronglySorted datestr_le (map Some zs) → NoDup (map Some zs) →
  StronglySorted Z.lt zs.
Proof.
  induction zs as [|z zs IH]; cbn [map]; intros Hs Hnd; [constructor|].
  apply StronglySorted_inv in Hs as [Hs Hall].
  apply NoDup_cons in Hnd as [Hz Hnd].
  constructor; [by apply IH|].
  apply Forall_forall. intros z' Hz'.
  assert (Hle : datestr_le (Some z) (Some z')).
  { rewrite Forall_forall in Hall. apply Hall, list_elem_of_fmap.
    by exists z'. }
  simpl in Hle. assert (z ≠ z'); [|lia].
  intros ->. apply Hz, list_elem_of_fmap. by exists z'.
Qed.

Lemma filter_filter_within (ds de z : Z) (l : list tx) :
  ds ≤ z ≤ de →
  List.filter (has_date (Some z)) (List.filter (dated_within ds de) l)
  = List.filter (has_date (Some z)) l.
Proof.
  intros Hz. induction l as [|t l IH]; [done|]. cbn [List.filter].
  destruct (dated_within ds de t) eqn:Hw; cbn [List.filter]; rewrite IH; [done|].
  unfold has_date. destruct (bool_decide_reflect (fecha t = Some z)) as [Heq|]; [|done].
  unfold dated_within in Hw. rewrite Heq in Hw.
  apply andb_false_iff in Hw as [Hw | Hw]; apply Z.leb_gt in Hw; lia.
Qed.


(** * utils.js: the identifiers of new records *)

Lemma to_int32_random (q : Q) :
  (0 <= q)%Q → (q < 1)%Q → 0 ≤ to_int32 (q * (16 # 1))%Q < 16.
Proof.
  intros H0 H1. unfold to_int32.
  assert (Hlo : (0 <= q * (16 # 1))%Q).
  { apply Qmult_le_0_compat; [done | by unfold Qle]. }
  assert (Hhi : (q * (16 # 1) < inject_Z 16)%Q).
  { change (inject_Z 16) with (1 * (16 # 1))%Q.
    apply Qmult_lt_compat_r; [by unfold Qlt | done]. }
  destruct (Qle_bool 0 (q * (16 # 1))) eqn:E;
    [|by apply Qle_bool_iff in Hlo; rewrite Hlo in E].
  assert (0 ≤ Qfloor (q * (16 # 1)) < 16); [|rewrite Z.mod_small; lia].
  split.
  - rewrite <- (Qfloor_Z 0). by apply Qfloor_resp_le.
  - rewrite Zlt_Qlt. eapply Qle_lt_trans; [apply Qfloor_le | done].
Qed.

Lemma small_cases (r : Z) :
  0 ≤ r < 16 →
  r = 0 ∨ r = 1 ∨ r = 2 ∨ r = 3 ∨ r = 4 ∨ r = 5 ∨ r = 6 ∨ r = 7 ∨ r = 8
  ∨ r = 9 ∨ r = 10 ∨ r = 11 ∨ r = 12 ∨ r = 13 ∨ r = 14 ∨ r = 15.
Proof. lia. Qed.

Lemma uuid_digit_x (q : Q) :
  (0 <= q)%Q → (q < 1)%Q →
  ∃ c, uuid_digit q "x" = String c EmptyString ∧ is_hex c = true.
Proof.
  intros H0 H1. unfold uuid_digit. cbv zeta.
  change (Ascii.eqb "x" "x") with true. cbv iota.
  pose proof (to_int32_random q H0 H1) as Hr.
  destruct (small_cases _ Hr) as
    [-> | [-> | [-> | [-> | [-> | [-> | [-> | [-> | [-> | [-> | [-> | [-> |
    [-> | [-> | [-> | ->]]]]]]]]]]]]]]]; by eexists.
Qed.

Lemma uuid_digit_y (q : Q) :
  (0 <= q)%Q → (q < 1)%Q →
  ∃ c, uuid_digit q "y" = String c EmptyString ∧ is_variant c = true.
Proof.
  intros H0 H1. unfold uuid_digit. cbv zeta.
  change (Ascii.eqb "y" "x") with false. cbv iota.
  pose proof (to_int32_random q H0 H1) as Hr.
  destruct (small_cases _ Hr) as
    [-> | [-> | [-> | [-> | [-> | [-> | [-> | [-> | [-> | [-> | [-> | [-> |
    [-> | [-> | [-> | ->]]]]]]]]]]]]]]]; by eexists.
Qed.

Lemma replace_xy_shape (random : nat → Q) (template : string) :
  (∀ n, (0 <= random n)%Q ∧ (random n < 1)%Q) →
  ∀ n, has_shape template (replace_xy random n template) = true.
Proof.
  intros Hrandom. induction template as [|p template IH]; intros n; [done|].
  cbn [replace_xy]. destruct (Hrandom n) as [H0 H1].
  destruct (Ascii.eqb p "x") eqn:Ex.
  - apply Ascii.eqb_eq in Ex as ->. cbn [orb].
    destruct (uuid_digit_x _ H0 H1) as (c & -> & Hc).
    change (String c EmptyString +:+ ?s) with (String c s).
    cbn [has_shape]. change (Ascii.eqb "x" "x") with true. cbv iota.
    by rewrite Hc, IH.
  - cbn [orb]. destruct (Ascii.eqb p "y") eqn:Ey.
    + apply Ascii.eqb_eq in Ey as ->.
      destruct (uuid_digit_y _ H0 H1) as (c & -> & Hc).
      change (String c EmptyString +:+ ?s) with (String c s).
      cbn [has_shape]. change (Ascii.eqb "y" "x") with false.
      change (Ascii.eqb "y" "y") with true. cbv iota.
      by rewrite Hc, IH.
    + cbn [has_shape]. by rewrite Ex, Ey, Ascii.eqb_refl, IH.
Qed.

Lemma has_shape_length (pattern s : string) :
  has_shape pattern s = true → String.length s = String.length pattern.
Proof.
  revert s. induction pattern as [|p pattern IH]; intros [|c s]; try done.
  cbn [has_shape String.length]. intros [_ H]%andb_true_iff. by rewrite (IH s H).
Qed.

(** [X23] Where the browser has no [crypto.randomUUID], [generateId] still returns
    a well-formed version-4 UUID, whatever [Math.random] delivers: 36
    characters, the hyphens in their places, the version digit 4, the variant
    digit one of 8, 9, a, b, and a lower-case hexadecimal digit anywhere
    else. *)
Theorem generateId_fallback_is_uuid_v4 (random : nat → Q) :
  (∀ n, (0 <= random n)%Q ∧ (random n < 1)%Q) →
  is_uuid_v4 (generateId None random) = true
  ∧ String.length (generateId None random) = 36%nat.
Proof.
  intros Hrandom. unfold is_uuid_v4, generateId.
  pose proof (replace_xy_shape random "xxxxxxxx-xxxx-4xxx-yxxx-xxxxxxxxxxxx"
                Hrandom 0%nat) as H.
  split; [exact H|]. rewrite (has_shape_length _ _ H). reflexivity.
Qed.

Lemma generateId_fallback_is_uuid_v4_witness :
  is_uuid_v4 (generateId None random_sample) = true
  ∧ String.length (generateId None random_sample) = 36%nat.
Proof.
  apply (generateId_fallback_is_uuid_v4 random_sample).
  intros n. unfold random_sample, Qle, Qlt. simpl.
  pose proof (Z.mod_pos_bound (Z.of_nat n) 16). lia.
Defined.

(** * form.js: what the form lets into the store *)

Lemma submit_guard (monto : jsnum) :
  negb (truthy (JNum monto)) || js_le monto (Fin 0) || isNaN monto = false
  ↔ positive monto.
Proof.
  unfold positive. destruct monto as [|z]; cbn [truthy js_le isNaN negb orb].
  - split; [done | by intros (z & [=] & _)].
  - rewrite orb_false_r, orb_false_iff, negb_false_iff, negb_true_iff,
      Z.eqb_neq, Z.leb_gt. split.
    + intros [_ Hz]. by exists z.
    + intros (z' & [= <-] & Hz). lia.
Qed.

(** [X24] The submit handler stores a record exactly when the amount read from
    the form is a number above zero.  With any other amount (nothing typed,
    zero, a negative number, no number) it returns with the store untouched.
    With an amount above zero it adds one pending row under the next key:
    the row has the amount, the kind and the user of the form, an id from
    [generateId], and the date of the date field or, when that is empty,
    today's date in UTC. *)
Theorem form_submit_guard (view : form_view) (input : form_input) (e : form_env)
    (s : db) :
  let r := submit view input e s in
  (positive (monto_value input) →
     ∃ row,
       snd r = SubmitSaved (nextLocalId s)
       ∧ transactions (fst r) = (transactions s ++ [row])%list
       ∧ localId row = nextLocalId s
       ∧ syncStatus row = Pending
       ∧ monto row = monto_value input
       ∧ tipo row = form_tipo view
       ∧ usuario row = currentUser view
       ∧ id row = JStr (generateId (f_randomUUID e) (f_random e))
       ∧ fecha row = match fecha_value input with
                     | Some d => Some d
                     | None => Some (f_now e `div` msPerDay)
                     end)
  ∧ (¬ positive (monto_value input) → r = (s, SubmitRejected)).
Proof.
  intros r. subst r. unfold submit. cbv zeta.
  destruct (negb (truthy (JNum (monto_value input)))
            || js_le (monto_value input) (Fin 0) || isNaN (monto_value input)) eqn:G.
  - split; [|done]. intros Hp. apply submit_guard in Hp. congruence.
  - split; [|intros Hn; by apply submit_guard in G].
    intros _. eexists. cbn [addTransaction fst snd].
    split; [reflexivity|]. split; [reflexivity|]. cbn.
    repeat split; by destruct (fecha_value input).
Qed.

Lemma tally_positive (l : list tx) :
  Forall (λ t, positive (monto t)) l →
  ∃ i g, 0 ≤ i ∧ 0 ≤ g ∧ tally l = (Fin i, Fin g).
Proof.
  induction l as [|t l IH] using rev_ind; intros Hall.
  - exists 0, 0. by repeat split.
  - apply Forall_app in Hall as [Hl Ht]. apply Forall_inv in Ht.
    destruct (IH Hl) as (i & g & Hi & Hg & E). destruct Ht as (z & Hz & Hpos).
    rewrite tally_snoc, E, Hz. cbn [fst snd js_add].
    destruct (is_ingreso t).
    + exists (i + z), g. repeat split; [lia | done].
    + exists i, (g + z). repeat split; [done | lia].
Qed.

Lemma form_step_positive (s : db) (u : form_use) :
  Forall (λ t, positive (monto t)) (transactions s) →
  Forall (λ t, positive (monto t)) (transactions (form_step s u)).
Proof.
  intros Hs. unfold form_step, submit. cbv zeta.
  destruct (negb (truthy (JNum (monto_value (use_input u))))
            || js_le (monto_value (use_input u)) (Fin 0)
            || isNaN (monto_value (use_input u))) eqn:G; [done|].
  cbn [addTransaction fst transactions]. apply Forall_app. split; [done|].
  apply Forall_cons. split; [|constructor]. cbn [monto]. by apply submit_guard.
Qed.

(** [X25] A ledger filled through the form keeps its totals sound.  If every
    amount in the store is a number above zero, then after any series of
    uses of the form, whatever was typed, every amount still is, and the
    income and the expense total of [getTotalBalance] are numbers that are
    not negative, with the balance their difference: no input of the form
    turns a total into NaN. *)
Theorem form_keeps_totals_sound (uses : list form_use) (s : db) :
  Forall (λ t, positive (monto t)) (transactions s) →
  Forall (λ t, positive (monto t)) (transactions (form_run uses s))
  ∧ ∃ i g, 0 ≤ i ∧ 0 ≤ g
      ∧ getTotalBalance (form_run uses s)
        = {| ingresos := Fin i; gastos := Fin g; tb_balance := Fin (i - g) |}.
Proof.
  intros Hs.
  assert (H : Forall (λ t, positive (monto t)) (transactions (form_run uses s))).
  { unfold form_run. revert s Hs. induction uses as [|u uses IH]; intros s Hs; [done|].
    cbn [fold_left]. by apply IH, form_step_positive. }
  split; [exact H|].
  destruct (tally_positive _ H) as (i & g & Hi & Hg & E).
  exists i, g. split; [done|]. split; [done|].
  unfold getTotalBalance. cbv zeta. by rewrite E.
Qed.

Lemma form_keeps_totals_sound_witness :
  Forall (λ t, positive (monto t)) (transactions (form_run sample_uses store_two_pending))
  ∧ ∃ i g, 0 ≤ i ∧ 0 ≤ g
      ∧ getTotalBalance (form_run sample_uses store_two_pending)
        = {| ingresos := Fin i; gastos := Fin g; tb_balance := Fin (i - g) |}.
Proof.
  apply (form_keeps_totals_sound sample_uses store_two_pending).
  repeat constructor; eexists; (split; [reflexivity | lia]).
Defined.

(** * settings.js: what the manual sync tells the user *)

Lemma sync_disabled_with_get (answer : get_outcome) (e : env) :
  sync_disabled (with_get_transactions answer e) = sync_disabled e.
Proof. reflexivity. Qed.

Lemma push_with_get (answer : get_outcome) (e : env) (s : db) :
  pushPendingTransactions (with_get_transactions answer e) s
  = pushPendingTransactions e s.
Proof. reflexivity. Qed.

Lemma pull_counts_nothing (e : env) (now : clock) (s : db) :
  get_transactions e = GetThrows ∨ get_transactions e = GetNotOk
  ∨ get_transactions e = GetJson (Some []) →
  snd (pullRemoteTransactions e now s) = 0%nat.
Proof.
  unfold pullRemoteTransactions. destruct (sync_disabled e); [done|].
  by intros [-> | [-> | ->]].
Qed.

Lemma manual_sync_report (e : env) (now : clock) (s : db) :
  snd (pullRemoteTransactions e now (fst (pushPendingTransactions e s))) = 0%nat →
  snd (manual_sync e now s)
  = if String.eqb (api_url e) EmptyString
    then {| toast := ToastConfigure; status_text := None |}
    else if negb (onLine e)
    then {| toast := ToastOffline; status_text := None |}
    else
      let r := snd (pushPendingTransactions e s) in
      if Nat.ltb 0 (synced r)
      then {| toast := ToastParts [Enviadas (synced r)];
              status_text := Some (if Nat.ltb 0 (pending r)
                                   then StatusPending (pending r)
                                   else StatusAllSynced) |}
      else if Nat.ltb 0 (pending r)
      then {| toast := ToastFailed; status_text := Some (StatusPending (pending r)) |}
      else {| toast := ToastAllSynced; status_text := Some StatusAllSynced |}.
Proof.
  intros Hpull. unfold manual_sync, syncPendingTransactions. cbv zeta.
  destruct (String.eqb (api_url e) EmptyString); [done|].
  destruct (negb (onLine e)); [done|].
  destruct (pushPendingTransactions e s) as [s1 r]. cbn [fst snd] in *.
  destruct (pullRemoteTransactions e now s1) as [s2 pulled].
  cbn [snd] in Hpull. subst pulled. cbn [sync_synced sync_pulled sync_pending].
  change (Nat.ltb 0 0) with false. cbv iota.
  destruct (Nat.ltb 0 (synced r)); cbn [app length]; [done|].
  change (Nat.ltb 0 0) with false. cbv iota.
  by destruct (Nat.ltb 0 (pending r)).
Qed.

(** [X26] The manual sync does not tell a failed pull from a pull that found
    nothing: when the GET throws or its response is not ok, the toast and
    the status line are those of a sync whose pull was answered with an
    empty ledger.  With nothing pending, a sync whose pull fails leaves the
    store as it was and says 'Todo está sincronizado'. *)
Theorem manual_sync_hides_pull_failure (e : env) (now : clock) (s : db) :
  get_transactions e = GetThrows ∨ get_transactions e = GetNotOk →
  snd (manual_sync e now s)
  = snd (manual_sync (with_get_transactions (GetJson (Some [])) e) now s)
  ∧ (sync_disabled e = false → getPendingTransactions s = [] →
     manual_sync e now s
     = (s, {| toast := ToastAllSynced; status_text := Some StatusAllSynced |})).
Proof.
  intros Hfail. split.
  - rewrite !manual_sync_report.
    + reflexivity.
    + apply pull_counts_nothing. by right; right.
    + apply pull_counts_nothing. destruct Hfail; [by left | by right; left].
  - intros Hen Hnone.
    assert (Hpush : pushPendingTransactions e s = (s, {| synced := 0; pending := 0 |})).
    { unfold pushPendingTransactions. by rewrite Hen, Hnone. }
    assert (Hpull : pullRemoteTransactions e now s = (s, 0%nat)).
    { unfold pullRemoteTransactions. rewrite Hen. by destruct Hfail as [-> | ->]. }
    apply orb_false_iff in Hen as [Hon Hurl]. unfold getApiUrl in Hurl.
    unfold manual_sync, syncPendingTransactions. cbv zeta.
    by rewrite Hurl, Hon, Hpush, Hpull.
Qed.

Lemma manual_sync_hides_pull_failure_witness :
  manual_sync env_pull_down clock_a empty_db
  = (empty_db, {| toast := ToastAllSynced; status_text := Some StatusAllSynced |}).
Proof.
  destruct (manual_sync_hides_pull_failure env_pull_down clock_a empty_db
              (or_intror eq_refl)) as [_ H].
  apply H; reflexivity.
Defined.

(** [X27] 'No se pudo sincronizar' is shown exactly when a push was attempted and
    failed and the pull brought nothing new: the device is online with an
    endpoint configured, records are pending, the POST threw or was not ok,
    and the pull counted 0.  A failure of the pull alone never shows it. *)
Theorem manual_sync_failure_toast (e : env) (now : clock) (s : db) :
  toast (snd (manual_sync e now s)) = ToastFailed
  ↔ sync_disabled e = false
    ∧ getPendingTransactions s ≠ []
    ∧ post_sync e (push_body (getPendingTransactions s)) ≠ PostStatus true
    ∧ snd (pullRemoteTransactions e now s) = 0%nat.
Proof.
  unfold manual_sync, syncPendingTransactions, pushPendingTransactions,
    sync_disabled, getApiUrl. cbv zeta.
  destruct (String.eqb (api_url e) EmptyString) eqn:Hurl.
  { rewrite orb_true_r. cbn. split; [done | by intros [? _]]. }
  destruct (onLine e) eqn:Hon; cbn [negb orb];
    [|cbn; split; [done | by intros [? _]]].
  destruct (getPendingTransactions s) as [|t rows] eqn:Hp.
  { cbn [length Nat.eqb].
    destruct (pullRemoteTransactions e now s) as [s2 pulled].
    cbn [sync_synced sync_pulled sync_pending synced pending app].
    change (Nat.ltb 0 0) with false. cbv iota.
    split; [|by intros (_ & ? & _)].
    destruct (Nat.ltb 0 pulled); cbn; done. }
  cbn [length Nat.eqb].
  destruct (post_sync e (push_body (t :: rows))) as [|[|]] eqn:Hpost.
  - destruct (pullRemoteTransactions e now s) as [s2 pulled].
    cbn [sync_synced sync_pulled sync_pending synced pending app length snd].
    change (Nat.ltb 0 0) with false. cbv iota.
    destruct pulled as [|n]; cbn; split; try done.
    + by intros (_ & _ & _ & ?).
  - destruct (pullRemoteTransactions e now (markAsSynced _ s)) as [s2 pulled].
    cbn [sync_synced sync_pulled sync_pending synced pending app length snd].
    split; [|by intros (_ & _ & ? & _)].
    destruct pulled; cbn; done.
  - destruct (pullRemoteTransactions e now s) as [s2 pulled].
    cbn [sync_synced sync_pulled sync_pending synced pending app length snd].
    change (Nat.ltb 0 0) with false. cbv iota.
    destruct pulled as [|n]; cbn; split; try done.
    + by intros (_ & _ & _ & ?).
Qed.
